(** * estd::blocking_queue: semaphore, blocking deque and consumer iterator

    A shallow embedding of [blocking_queue.h] and the properties of its
    specification.

    Modelling conventions.
    - [int] is a 32-bit two's complement integer: a [Z] kept in range by
      [wrap] after [++count_] and [--count_], as the machine computes them
      (the language itself leaves an [int] that overflows undefined).
    - [std::mutex] is its lock word, as the usual implementations behave:
      [lock()] takes the word when it is free and suspends the caller
      otherwise; [unlock()] clears the word, whoever holds it.
    - [std::deque<T>] is a [list T], front first.  Its [size()] is the
      length of the list (a deque never holds more than [max_size()]
      elements, so the [size_t] result is the exact length).
    - A member function is a computation over the object's state that
      either returns, suspends its thread for good, or has no defined
      behaviour ([front()]/[back()] of an empty deque). *)

From Stdlib Require Import ZArith List Bool Lia.
Import ListNotations.
Local Open Scope Z_scope.

Set Implicit Arguments.

(** ** Machine integers *)

Definition INT_MIN : Z := - 2147483648.
Definition INT_MAX : Z := 2147483647.
Definition UINT_RANGE : Z := 4294967296.

(** The value an [int] holds after an arithmetic result [z]. *)
Definition wrap (z : Z) : Z := (z - INT_MIN) mod UINT_RANGE + INT_MIN.
Arguments wrap : simpl never.

(** ** Outcomes of a call *)

Inductive outcome (A : Type) : Type :=
| Done (a : A)      (* the call returned [a] *)
| Blocked           (* the caller waits on a lock word that stays taken *)
| Undefined         (* no defined behaviour *)
| OutOfFuel.        (* the loop bound of the model was reached *)

Arguments Blocked {A}.
Arguments Undefined {A}.
Arguments OutOfFuel {A}.

(** Computations over a state [S]. *)
Definition M (S A : Type) : Type := S -> outcome (A * S).

Definition ret {S A} (a : A) : M S A := fun s => Done (a, s).

Definition bind {S A B} (m : M S A) (k : A -> M S B) : M S B :=
  fun s =>
    match m s with
    | Done (a, s') => k a s'
    | Blocked => Blocked
    | Undefined => Undefined
    | OutOfFuel => OutOfFuel
    end.

Declare Scope monad_scope.
Delimit Scope monad_scope with monad.
Notation "x <- m ;; k" := (bind m (fun x => k))
  (at level 61, m at next level, right associativity) : monad_scope.
Notation "m ;; k" := (bind m (fun _ => k))
  (at level 61, right associativity) : monad_scope.
Local Open Scope monad_scope.

Definition get {S} : M S S := fun s => Done (s, s).

(** Runs [m] on the component of the state selected by [proj]/[upd]. *)
Definition zoom {S1 S2 A} (proj : S1 -> S2) (upd : S1 -> S2 -> S1)
  (m : M S2 A) : M S1 A :=
  fun s =>
    match m (proj s) with
    | Done (a, c) => Done (a, upd s c)
    | Blocked => Blocked
    | Undefined => Undefined
    | OutOfFuel => OutOfFuel
    end.

(** ** std::mutex *)

Inductive mutex : Type := Free | Taken.

Definition mutex_lock : M mutex unit :=
  fun m => match m with Free => Done (tt, Taken) | Taken => Blocked end.

Definition mutex_unlock : M mutex unit :=
  fun _ => Done (tt, Free).

(** ** class semaphore *)

Record semaphore : Type := mkSemaphore {
  mtx_ : mutex;
  sig_ : mutex;
  count_ : Z
}.

Definition set_mtx (s : semaphore) (m : mutex) : semaphore :=
  mkSemaphore m (sig_ s) (count_ s).
Definition set_sig (s : semaphore) (m : mutex) : semaphore :=
  mkSemaphore (mtx_ s) m (count_ s).
Definition set_count (s : semaphore) (c : Z) : semaphore :=
  mkSemaphore (mtx_ s) (sig_ s) c.

(** [semaphore(int count = 0)] *)
Definition semaphore_new (count : Z) : semaphore :=
  mkSemaphore Free Free count.
Definition semaphore_default : semaphore := semaphore_new 0.

Module Semaphore.

Definition on_mtx {A} : M mutex A -> M semaphore A := zoom mtx_ set_mtx.
Definition on_sig {A} : M mutex A -> M semaphore A := zoom sig_ set_sig.
Definition incr_count : M semaphore unit :=
  fun s => Done (tt, set_count s (wrap (count_ s + 1))).
Definition decr_count : M semaphore unit :=
  fun s => Done (tt, set_count s (wrap (count_ s - 1))).

(** [semaphore::signal] *)
Definition signal : M semaphore unit :=
  on_mtx mutex_lock ;;
  incr_count ;;
  on_sig mutex_unlock ;;
  on_mtx mutex_unlock.

(** [while (count_ == 0) sig_.lock();] *)
Fixpoint wait_loop (fuel : nat) : M semaphore unit :=
  match fuel with
  | O => fun _ => OutOfFuel
  | S fuel' =>
      s <- get ;;
      if count_ s =? 0
      then on_sig mutex_lock ;; wait_loop fuel'
      else ret tt
  end.

(** Two tests of the loop condition settle the loop: it is left at
    once, or the second [sig_.lock()] finds the word taken. *)
Definition wait_fuel : nat := 2.

(** [semaphore::wait] *)
Definition wait : M semaphore unit :=
  on_mtx mutex_lock ;;
  wait_loop wait_fuel ;;
  decr_count ;;
  on_mtx mutex_unlock.

End Semaphore.

(** Calls on a gate, and runs of them by one thread. *)
Inductive gate_op : Type := Signal | Wait.

Definition run_gate_op (o : gate_op) : M semaphore unit :=
  match o with
  | Signal => Semaphore.signal
  | Wait => Semaphore.wait
  end.

Fixpoint run_gate (os : list gate_op) : M semaphore unit :=
  match os with
  | [] => ret tt
  | o :: os' => run_gate_op o ;; run_gate os'
  end.

Definition is_signal (o : gate_op) : bool :=
  match o with Signal => true | Wait => false end.

(** The number of [signal()] calls in a run. *)
Definition signals (os : list gate_op) : Z :=
  Z.of_nat (length (filter is_signal os)).

(** ** std::deque<T> *)

Module Deque.
Section Deque.
Variable T : Type.

Definition push_back (d : list T) (t : T) : list T := d ++ [t].
Definition push_front (d : list T) (t : T) : list T := t :: d.
Definition front (d : list T) : option T := hd_error d.
Definition back (d : list T) : option T := hd_error (rev d).
Definition pop_front (d : list T) : list T := tl d.
Definition pop_back (d : list T) : list T := removelast d.
Definition size (d : list T) : Z := Z.of_nat (length d).
End Deque.
End Deque.

(** ** class blocking_queue<T> *)

Section BlockingQueue.
Variable T : Type.
(** The value of a default-initialised [T]. *)
Variable T_default : T.

Record blocking_queue : Type := mkQueue {
  data_ : list T;
  m_ : mutex;
  e_ : semaphore;
  sz : Z
}.

Definition set_data (q : blocking_queue) (d : list T) : blocking_queue :=
  mkQueue d (m_ q) (e_ q) (sz q).
Definition set_m (q : blocking_queue) (m : mutex) : blocking_queue :=
  mkQueue (data_ q) m (e_ q) (sz q).
Definition set_e (q : blocking_queue) (e : semaphore) : blocking_queue :=
  mkQueue (data_ q) (m_ q) e (sz q).
Definition set_sz (q : blocking_queue) (n : Z) : blocking_queue :=
  mkQueue (data_ q) (m_ q) (e_ q) n.

(** The implicit default constructor: empty deque, free lock, gate at 0;
    [sz] has no initialiser and starts with whatever value [sz0]. *)
Definition blocking_queue_new (sz0 : Z) : blocking_queue :=
  mkQueue [] Free semaphore_default sz0.

Definition on_m {A} : M mutex A -> M blocking_queue A := zoom m_ set_m.
Definition on_e {A} : M semaphore A -> M blocking_queue A := zoom e_ set_e.
Definition on_data (f : list T -> list T) : M blocking_queue unit :=
  fun q => Done (tt, set_data q (f (data_ q))).
(** Reads an element that must exist. *)
Definition read_data (f : list T -> option T) : M blocking_queue T :=
  fun q => match f (data_ q) with
           | Some t => Done (t, q)
           | None => Undefined
           end.

(** [blocking_queue<T>::push_back] *)
Definition push_back (t : T) : M blocking_queue unit :=
  on_m mutex_lock ;;
  on_data (fun d => Deque.push_back d t) ;;
  on_m mutex_unlock ;;
  on_e Semaphore.signal.

(** [blocking_queue<T>::push_front] *)
Definition push_front (t : T) : M blocking_queue unit :=
  on_m mutex_lock ;;
  on_data (fun d => Deque.push_front d t) ;;
  on_m mutex_unlock ;;
  on_e Semaphore.signal.

(** [blocking_queue<T>::pop_back] *)
Definition pop_back : M blocking_queue T :=
  on_e Semaphore.wait ;;
  on_m mutex_lock ;;
  t <- read_data (@Deque.back T) ;;
  on_data (@Deque.pop_back T) ;;
  on_m mutex_unlock ;;
  ret t.

(** [blocking_queue<T>::pop_front] *)
Definition pop_front : M blocking_queue T :=
  on_e Semaphore.wait ;;
  on_m mutex_lock ;;
  t <- read_data (@Deque.front T) ;;
  on_data (@Deque.pop_front T) ;;
  on_m mutex_unlock ;;
  ret t.

(** [blocking_queue<T>::size]; its local [sz] hides the member. *)
Definition size : M blocking_queue Z :=
  on_m mutex_lock ;;
  q <- get ;;
  let sz := Deque.size (data_ q) in
  on_m mutex_unlock ;;
  ret sz.

(** *** class consumer_iterator

    [bq_] is the queue whose state the iterator's operations run on. *)

Record consumer_iterator : Type := mkIterator {
  value_ : T;
  detach_ : bool;
  end_ : bool
}.

Definition set_value (it : consumer_iterator) (v : T) : consumer_iterator :=
  mkIterator v (detach_ it) (end_ it).
Definition set_end (it : consumer_iterator) (b : bool) : consumer_iterator :=
  mkIterator (value_ it) (detach_ it) b.

(** [void detach(bool enable = true)] *)
Definition detach (it : consumer_iterator) (enable : bool) : consumer_iterator :=
  mkIterator (value_ it) enable (end_ it).
Definition is_detached (it : consumer_iterator) : bool := detach_ it.

(** [operator*] *)
Definition op_deref (it : consumer_iterator) : T := value_ it.
(** [operator==] *)
Definition op_eq (a b : consumer_iterator) : bool := eqb (end_ a) (end_ b).
(** [operator!=] *)
Definition op_neq (a b : consumer_iterator) : bool := negb (op_eq a b).

(** The test [is_detached() && bq_.size() == 0]; [size()] is called only
    for a detached iterator. *)
Definition detached_and_empty (it : consumer_iterator) : M blocking_queue bool :=
  if is_detached it
  then n <- size ;; ret (n =? 0)
  else ret false.

(** [consumer_iterator::operator++] *)
Definition op_incr (it : consumer_iterator) : M blocking_queue consumer_iterator :=
  stop <- detached_and_empty it ;;
  if (stop : bool)
  then ret (set_end it true)
  else v <- pop_front ;; ret (set_value it v).

(** [consumer_iterator::operator--] *)
Definition op_decr (it : consumer_iterator) : M blocking_queue consumer_iterator :=
  stop <- detached_and_empty it ;;
  if (stop : bool)
  then ret (set_end it true)
  else v <- pop_back ;; ret (set_value it v).

(** [consumer_iterator(blocking_queue& bq, bool advance, bool end)] *)
Definition consumer_iterator_new (advance end_arg : bool)
  : M blocking_queue consumer_iterator :=
  let it := mkIterator T_default false end_arg in
  if end_arg then ret it
  else if advance then op_incr it
  else op_decr it.

Definition bq_begin : M blocking_queue consumer_iterator :=
  consumer_iterator_new true false.
Definition bq_end : M blocking_queue consumer_iterator :=
  consumer_iterator_new true true.
Definition bq_rbegin : M blocking_queue consumer_iterator :=
  consumer_iterator_new false false.
Definition bq_rend : M blocking_queue consumer_iterator := bq_end.

(** [blocking_queue<T>::begin_detached] *)
Definition begin_detached : M blocking_queue consumer_iterator :=
  bgn <- bq_begin ;;
  ret (detach bgn true).

(** [blocking_queue<T>::rbegin_detached] *)
Definition rbegin_detached : M blocking_queue consumer_iterator :=
  rbgn <- bq_rbegin ;;
  ret (detach rbgn true).

(** *** Client programs of the specification *)

(** [push_back(v1); ...; push_back(vn);] *)
Fixpoint push_back_all (vs : list T) : M blocking_queue unit :=
  match vs with
  | [] => ret tt
  | v :: vs' => push_back v ;; push_back_all vs'
  end.

(** [n] calls of [pop_front()], results in call order. *)
Fixpoint pop_front_n (n : nat) : M blocking_queue (list T) :=
  match n with
  | O => ret []
  | S n' => v <- pop_front ;; vs <- pop_front_n n' ;; ret (v :: vs)
  end.

(** [n] calls of [pop_back()], results in call order. *)
Fixpoint pop_back_n (n : nat) : M blocking_queue (list T) :=
  match n with
  | O => ret []
  | S n' => v <- pop_back ;; vs <- pop_back_n n' ;; ret (v :: vs)
  end.

(** The loop [for (...; it != end(); ++it) use(it);] where [use] reads
    the held value; [acc] lists the values read so far. *)
Fixpoint traverse (fuel : nat) (it : consumer_iterator) (acc : list T)
  : M blocking_queue (list T) :=
  match fuel with
  | O => fun _ => OutOfFuel
  | S fuel' =>
      e <- bq_end ;;
      if op_neq it e
      then
        let acc' := acc ++ [op_deref it] in
        it' <- op_incr it ;;
        traverse fuel' it' acc'
      else ret acc
  end.

(** [for (auto it = q.begin_detached(); it != q.end(); ++it) use(it);] *)
Definition traverse_detached (fuel : nat) : M blocking_queue (list T) :=
  it <- begin_detached ;;
  traverse fuel it [].

(** The queue operations as commands, and runs of them. *)
Inductive op : Type :=
| PushBack (t : T)
| PushFront (t : T)
| PopBack
| PopFront.

Definition is_push (o : op) : bool :=
  match o with
  | PushBack _ | PushFront _ => true
  | PopBack | PopFront => false
  end.

Definition run_op (o : op) : M blocking_queue unit :=
  match o with
  | PushBack t => push_back t
  | PushFront t => push_front t
  | PopBack => pop_back ;; ret tt
  | PopFront => pop_front ;; ret tt
  end.

Fixpoint run_ops (os : list op) : M blocking_queue unit :=
  match os with
  | [] => ret tt
  | o :: os' => run_op o ;; run_ops os'
  end.

(** The state of a queue between two calls of one thread: both locks
    are free and the gate has counted, as an [int], one [signal()] per
    stored element. *)
Definition consistent (q : blocking_queue) : Prop :=
  m_ q = Free /\ mtx_ (e_ q) = Free /\
  count_ (e_ q) = wrap (Z.of_nat (length (data_ q))).

End BlockingQueue.

Arguments mkIterator {T}.
Arguments PopBack {T}.
Arguments PopFront {T}.
Arguments is_push {T} o.

(** ** The gate shared by several threads

    Each thread executes one call of [signal()] or [wait()], one statement
    at a time; the statements of different threads interleave. *)

Module Interleaving.
Import Semaphore.

(** The statement a thread executes next. *)
Inductive pc : Type :=
| SignalLock     (* signal: std::unique_lock<std::mutex> lck(mtx_) *)
| SignalIncr     (* ++count_ *)
| SignalUnlock   (* sig_.unlock() *)
| SignalExit     (* lck goes out of scope and releases mtx_ *)
| WaitLock       (* wait: std::unique_lock<std::mutex> lck(mtx_) *)
| WaitTest       (* while (count_ == 0) *)
| WaitSigLock    (* sig_.lock() *)
| WaitDecr       (* --count_ *)
| WaitExit       (* lck goes out of scope and releases mtx_ *)
| Returned.

(** Executes statement [m] and moves to [next]; no step while [m] has to
    wait for a lock word. *)
Definition atomic (m : M semaphore unit) (next : pc) (s : semaphore)
  : option (pc * semaphore) :=
  match m s with
  | Done (_, s') => Some (next, s')
  | _ => None
  end.

Definition thread_step (p : pc) (s : semaphore) : option (pc * semaphore) :=
  match p with
  | SignalLock => atomic (on_mtx mutex_lock) SignalIncr s
  | SignalIncr => atomic incr_count SignalUnlock s
  | SignalUnlock => atomic (on_sig mutex_unlock) SignalExit s
  | SignalExit => atomic (on_mtx mutex_unlock) Returned s
  | WaitLock => atomic (on_mtx mutex_lock) WaitTest s
  | WaitTest => Some (if count_ s =? 0 then WaitSigLock else WaitDecr, s)
  | WaitSigLock => atomic (on_sig mutex_lock) WaitTest s
  | WaitDecr => atomic decr_count WaitExit s
  | WaitExit => atomic (on_mtx mutex_unlock) Returned s
  | Returned => None
  end.

(** One thread alone, until its call returns or cannot go on. *)
Fixpoint run_thread (fuel : nat) (p : pc) (s : semaphore) : outcome (unit * semaphore) :=
  match fuel with
  | O => OutOfFuel
  | S fuel' =>
      match p with
      | Returned => Done (tt, s)
      | _ =>
          match thread_step p s with
          | Some (p', s') => run_thread fuel' p' s'
          | None => Blocked
          end
      end
  end.

(** The gate and the threads that use it. *)
Record system : Type := mkSystem {
  gate : semaphore;
  threads : list pc
}.

Fixpoint set_nth (i : nat) (p : pc) (l : list pc) : list pc :=
  match l, i with
  | [], _ => []
  | _ :: l', O => p :: l'
  | x :: l', S i' => x :: set_nth i' p l'
  end.

(** The scheduler gives thread [i] one turn; a thread that has returned
    or waits for a lock word stays where it is. *)
Definition turn (st : system) (i : nat) : system :=
  match nth_error (threads st) i with
  | Some p =>
      match thread_step p (gate st) with
      | Some (p', g') => mkSystem g' (set_nth i p' (threads st))
      | None => st
      end
  | None => st
  end.

Definition run (schedule : list nat) (st : system) : system :=
  fold_left turn schedule st.

(** A thread that is about to call [signal()] or [wait()]. *)
Definition at_entry (p : pc) : bool :=
  match p with
  | SignalLock | WaitLock => true
  | _ => false
  end.

Definition returned (p : pc) : bool :=
  match p with
  | Returned => true
  | _ => false
  end.

(** The state of the gate while a [wait()] that found the counter at 0
    is in its loop: it holds [mtx_], the counter is still 0 and the
    other threads are where they were, at the entry of their calls. *)
Definition waiting (others : list pc) (st : system) : Prop :=
  mtx_ (gate st) = Taken /\ count_ (gate st) = 0
  /\ exists p, threads st = p :: others /\ (p = WaitTest \/ p = WaitSigLock).

End Interleaving.

(** ** Inputs at the limits of the counter *)

(** [2^32] equal elements: the input at which the [int] counter of the
    gate has gone round once. *)
Definition full_round : list unit := repeat tt (Z.to_nat UINT_RANGE).

(** [2^32] calls of [push_back]. *)
Definition full_round_pushes : list (op unit) :=
  repeat (PushBack tt) (Z.to_nat UINT_RANGE).

(** [2^31] calls of [push_back]: one more than [INT_MAX]. *)
Definition half_round_pushes : list (op unit) :=
  repeat (PushBack tt) (Z.to_nat (INT_MAX + 1)).

(** ** Further client programs and reference models *)

Section MorePrograms.
Variable T : Type.
Variable T_default : T.

(** [push_front(v1); ...; push_front(vn);] *)
Fixpoint push_front_all (vs : list T) : M (blocking_queue T) unit :=
  match vs with
  | [] => ret tt
  | v :: vs' => push_front v ;; push_front_all vs'
  end.

(** The loop [for (...; it != rend(); --it) use(it);]. *)
Fixpoint traverse_back (fuel : nat) (it : consumer_iterator T) (acc : list T)
  : M (blocking_queue T) (list T) :=
  match fuel with
  | O => fun _ => OutOfFuel
  | S fuel' =>
      e <- bq_rend T_default ;;
      if op_neq it e
      then
        let acc' := acc ++ [op_deref it] in
        it' <- op_decr it ;;
        traverse_back fuel' it' acc'
      else ret acc
  end.

(** [for (auto it = q.rbegin_detached(); it != q.rend(); --it) use(it);] *)
Definition traverse_back_detached (fuel : nat) : M (blocking_queue T) (list T) :=
  it <- rbegin_detached T_default ;;
  traverse_back fuel it [].

(** [for (auto it = q.begin(); it != q.end(); ++it) use(it);] *)
Definition traverse_plain (fuel : nat) : M (blocking_queue T) (list T) :=
  it <- bq_begin T_default ;;
  traverse T_default fuel it [].

(** A queue operation with what it hands back: a pop its element, a push
    nothing. *)
Definition run_op_out (o : op T) : M (blocking_queue T) (option T) :=
  match o with
  | PushBack t => push_back t ;; ret None
  | PushFront t => push_front t ;; ret None
  | PopBack => v <- @pop_back T ;; ret (Some v)
  | PopFront => v <- @pop_front T ;; ret (Some v)
  end.

Definition add_out (r : option T) (outs : list T) : list T :=
  match r with
  | Some v => v :: outs
  | None => outs
  end.

(** A run of operations and the elements its pops returned, in order. *)
Fixpoint run_ops_trace (os : list (op T)) : M (blocking_queue T) (list T) :=
  match os with
  | [] => ret []
  | o :: os' =>
      r <- run_op_out o ;;
      outs <- run_ops_trace os' ;;
      ret (add_out r outs)
  end.

(** The reference: the same operations on a plain double-ended sequence,
    where a pop has no result on the empty sequence. *)
Definition deque_step (o : op T) (d : list T) : option (option T * list T) :=
  match o with
  | PushBack t => Some (None, d ++ [t])
  | PushFront t => Some (None, t :: d)
  | PopBack =>
      match rev d with
      | [] => None
      | v :: r => Some (Some v, rev r)
      end
  | PopFront =>
      match d with
      | [] => None
      | v :: r => Some (Some v, r)
      end
  end.

Fixpoint deque_run (os : list (op T)) (d : list T) : option (list T * list T) :=
  match os with
  | [] => Some ([], d)
  | o :: os' =>
      match deque_step o d with
      | None => None
      | Some (r, d') =>
          match deque_run os' d' with
          | None => None
          | Some (outs, d'') => Some (add_out r outs, d'')
          end
      end
  end.

(** The numbers of pushes and of pops in a run. *)
Definition pushes (os : list (op T)) : Z :=
  Z.of_nat (length (filter is_push os)).
Definition pops (os : list (op T)) : Z :=
  Z.of_nat (length (filter (fun o => negb (is_push o)) os)).

(** [n] rounds of the loop [for (...; it != end(); ++it) use(it);]: the
    iterator and the values read after them, or earlier if the loop is
    left. *)
Fixpoint loop_steps (n : nat) (it : consumer_iterator T) (acc : list T)
  : M (blocking_queue T) (consumer_iterator T * list T) :=
  match n with
  | O => ret (it, acc)
  | S n' =>
      e <- bq_end T_default ;;
      if op_neq it e
      then
        let acc' := acc ++ [op_deref it] in
        it' <- op_incr it ;;
        loop_steps n' it' acc'
      else ret (it, acc)
  end.

End MorePrograms.

(** The counter is [>= 0] at [s] and after each operation of the run
    that returns. *)
Fixpoint counter_nonneg_along (os : list gate_op) (s : semaphore) : bool :=
  (0 <=? count_ s) &&
  match os with
  | [] => true
  | o :: os' =>
      match run_gate_op o s with
      | Done (_, s') => counter_nonneg_along os' s'
      | _ => true
      end
  end.

(** No [signal()] of the run is executed while the counter is
    [INT_MAX]. *)
Fixpoint no_signal_at_max (os : list gate_op) (s : semaphore) : bool :=
  match os with
  | [] => true
  | o :: os' =>
      match run_gate_op o s with
      | Done (_, s') =>
          (negb (is_signal o) || (count_ s <? INT_MAX))
          && no_signal_at_max os' s'
      | _ => true
      end
  end.

(** The number of [wait()] calls in a run. *)
Definition waits (os : list gate_op) : Z :=
  Z.of_nat (length (filter (fun o => negb (is_signal o)) os)).

(** A thread that holds [mtx_]: past the lock at the entry of its call and
    not yet out of the scope of [lck]. *)
Definition inside (p : Interleaving.pc) : bool :=
  match p with
  | Interleaving.SignalLock | Interleaving.WaitLock
  | Interleaving.Returned => false
  | _ => true
  end.

Definition holders (l : list Interleaving.pc) : nat :=
  length (filter inside l).

(** * Properties *)

(** ** Arithmetic of [int] *)

Lemma wrap_in_range (z : Z) : INT_MIN <= z <= INT_MAX -> wrap z = z.
Proof.
  unfold wrap, INT_MIN, INT_MAX, UINT_RANGE. intros H.
  rewrite Z.mod_small; lia.
Qed.

Lemma wrap_range (z : Z) : INT_MIN <= wrap z <= INT_MAX.
Proof.
  unfold wrap, INT_MIN, INT_MAX, UINT_RANGE.
  pose proof (Z.mod_pos_bound (z - -2147483648) 4294967296). lia.
Qed.

Lemma wrap_add_l (a b : Z) : wrap (wrap a + b) = wrap (a + b).
Proof.
  unfold wrap. f_equal.
  replace ((a - INT_MIN) mod UINT_RANGE + INT_MIN + b - INT_MIN)
    with ((a - INT_MIN) mod UINT_RANGE + b) by lia.
  replace (a + b - INT_MIN) with ((a - INT_MIN) + b) by lia.
  now rewrite Z.add_mod_idemp_l by (unfold UINT_RANGE; lia).
Qed.

Lemma wrap_zero_iff (z : Z) : wrap z = 0 <-> z mod UINT_RANGE = 0.
Proof.
  unfold wrap, INT_MIN, UINT_RANGE.
  pose proof (Z.mod_pos_bound (z - -2147483648) 4294967296).
  pose proof (Z.mod_pos_bound z 4294967296).
  pose proof (Z.div_mod (z - -2147483648) 4294967296).
  pose proof (Z.div_mod z 4294967296).
  lia.
Qed.

Lemma wrap_nonzero (z : Z) : 0 < z < UINT_RANGE -> wrap z <> 0.
Proof.
  intros H E. apply wrap_zero_iff in E.
  rewrite Z.mod_small in E; lia.
Qed.

(** ** The gate run by one thread *)

Module SemaphoreFacts.
Import Semaphore.

Lemma signal_spec (s : semaphore) :
  mtx_ s = Free ->
  signal s = Done (tt, mkSemaphore Free Free (wrap (count_ s + 1))).
Proof.
  destruct s as [m g c]; simpl; intros ->. reflexivity.
Qed.

Lemma signal_held (s : semaphore) : mtx_ s = Taken -> signal s = Blocked.
Proof.
  destruct s as [m g c]; simpl; intros ->. reflexivity.
Qed.

Lemma wait_spec (s : semaphore) :
  mtx_ s = Free -> count_ s <> 0 ->
  wait s = Done (tt, mkSemaphore Free (sig_ s) (wrap (count_ s - 1))).
Proof.
  destruct s as [m g c]; simpl; intros -> Hc.
  apply Z.eqb_neq in Hc.
  unfold wait, wait_fuel, wait_loop, bind, on_mtx, on_sig, zoom, get; simpl.
  rewrite Hc. reflexivity.
Qed.

(** A [wait()] that finds the counter at 0 does not return: alone, no
    other call changes [count_]. *)
Lemma wait_zero (s : semaphore) : count_ s = 0 -> wait s = Blocked.
Proof.
  destruct s as [m g c]; simpl; intros ->.
  destruct m, g; reflexivity.
Qed.

Lemma wait_held (s : semaphore) : mtx_ s = Taken -> wait s = Blocked.
Proof.
  destruct s as [m g c]; simpl; intros ->. reflexivity.
Qed.

(** More loop iterations than [wait_fuel] change nothing, and the bound
    is never the reason the loop stops. *)
Lemma wait_loop_settled (n : nat) (s : semaphore) :
  wait_loop (wait_fuel + n) s = wait_loop wait_fuel s
  /\ wait_loop wait_fuel s <> OutOfFuel.
Proof.
  destruct s as [m g c].
  unfold wait_fuel; simpl.
  unfold bind, get, on_sig, zoom; simpl.
  destruct (c =? 0) eqn:Hc; [| split; [reflexivity | discriminate]].
  destruct g; simpl; [| split; [reflexivity | discriminate]].
  rewrite Hc. split; [reflexivity | discriminate].
Qed.

Lemma wait_returns_iff (s : semaphore) :
  (exists s', wait s = Done (tt, s')) <-> (mtx_ s = Free /\ count_ s <> 0).
Proof.
  split.
  - intros [s' H]. destruct (mtx_ s) eqn:Hm.
    + split; [reflexivity |]. intros Hc.
      rewrite (wait_zero s Hc) in H. discriminate.
    + rewrite (wait_held s Hm) in H. discriminate.
  - intros [Hm Hc]. eexists. apply wait_spec; assumption.
Qed.

End SemaphoreFacts.

(** ** The queue run by one thread *)

Section QueueFacts.
Variable T : Type.
Variable T_default : T.


Lemma new_consistent (sz0 : Z) : consistent (blocking_queue_new T sz0).
Proof. repeat split. Qed.

Lemma push_back_spec (t : T) (q : blocking_queue T) :
  consistent q ->
  push_back t q =
    Done (tt, mkQueue (data_ q ++ [t]) Free
                (mkSemaphore Free Free (wrap (count_ (e_ q) + 1))) (sz q)).
Proof.
  destruct q as [d m e z]; intros (Hm & He & _); simpl in *; subst m.
  unfold push_back, bind, on_m, on_e, on_data, zoom; simpl.
  rewrite (SemaphoreFacts.signal_spec e He). reflexivity.
Qed.

Lemma push_front_spec (t : T) (q : blocking_queue T) :
  consistent q ->
  push_front t q =
    Done (tt, mkQueue (t :: data_ q) Free
                (mkSemaphore Free Free (wrap (count_ (e_ q) + 1))) (sz q)).
Proof.
  destruct q as [d m e z]; intros (Hm & He & _); simpl in *; subst m.
  unfold push_front, bind, on_m, on_e, on_data, zoom; simpl.
  rewrite (SemaphoreFacts.signal_spec e He). reflexivity.
Qed.

Lemma pop_front_spec (q : blocking_queue T) (v : T) (d : list T) :
  m_ q = Free -> mtx_ (e_ q) = Free -> count_ (e_ q) <> 0 ->
  data_ q = v :: d ->
  pop_front q =
    Done (v, mkQueue d Free
               (mkSemaphore Free (sig_ (e_ q)) (wrap (count_ (e_ q) - 1)))
               (sz q)).
Proof.
  destruct q as [d0 m e z]; simpl; intros -> He Hc ->.
  unfold pop_front, bind, on_m, on_e, on_data, read_data, zoom; simpl.
  rewrite (SemaphoreFacts.wait_spec e He Hc). reflexivity.
Qed.

Lemma pop_back_spec (q : blocking_queue T) (v : T) (d : list T) :
  m_ q = Free -> mtx_ (e_ q) = Free -> count_ (e_ q) <> 0 ->
  data_ q = d ++ [v] ->
  pop_back q =
    Done (v, mkQueue d Free
               (mkSemaphore Free (sig_ (e_ q)) (wrap (count_ (e_ q) - 1)))
               (sz q)).
Proof.
  destruct q as [d0 m e z]; simpl; intros -> He Hc ->.
  unfold pop_back, bind, on_m, on_e, on_data, read_data, zoom; simpl.
  rewrite (SemaphoreFacts.wait_spec e He Hc).
  cbv beta iota delta [set_e set_m set_data data_ m_ e_ sz fst snd
                       mutex_lock mutex_unlock ret Deque.back Deque.pop_back].
  rewrite rev_unit. cbn [hd_error]. now rewrite removelast_last.
Qed.

(** A pop that finds the gate at 0 waits; alone, for good. *)
Lemma pop_front_zero (q : blocking_queue T) : count_ (e_ q) = 0 -> pop_front q = Blocked.
Proof.
  intros Hc. unfold pop_front, bind, on_e, zoom.
  now rewrite (SemaphoreFacts.wait_zero _ Hc).
Qed.

Lemma pop_back_zero (q : blocking_queue T) : count_ (e_ q) = 0 -> pop_back q = Blocked.
Proof.
  intros Hc. unfold pop_back, bind, on_e, zoom.
  now rewrite (SemaphoreFacts.wait_zero _ Hc).
Qed.

Lemma size_spec (q : blocking_queue T) :
  m_ q = Free -> size q = Done (Z.of_nat (length (data_ q)), q).
Proof.
  destruct q as [d m e z]; simpl; intros ->. reflexivity.
Qed.

(** Consistency is kept by each operation that returns. *)

Lemma consistent_push (q : blocking_queue T) (d : list T) :
  consistent q -> length d = S (length (data_ q)) ->
  consistent (mkQueue d Free
                (mkSemaphore Free Free (wrap (count_ (e_ q) + 1))) (sz q)).
Proof.
  intros (_ & _ & Hc) Hd. repeat split; simpl.
  rewrite Hc, wrap_add_l, Hd. f_equal. lia.
Qed.

Lemma consistent_pop (q : blocking_queue T) (d : list T) (g : mutex) :
  consistent q -> length (data_ q) = S (length d) ->
  consistent (mkQueue d Free
                (mkSemaphore Free g (wrap (count_ (e_ q) - 1))) (sz q)).
Proof.
  intros (_ & _ & Hc) Hd. repeat split; simpl.
  rewrite Hc. change (?x - 1) with (x + -1).
  rewrite wrap_add_l, Hd. f_equal. lia.
Qed.

Lemma consistent_nonzero (q : blocking_queue T) :
  consistent q ->
  0 < Z.of_nat (length (data_ q)) < UINT_RANGE ->
  count_ (e_ q) <> 0.
Proof.
  intros (_ & _ & Hc) Hl. rewrite Hc. now apply wrap_nonzero.
Qed.

End QueueFacts.

(** ** Pushing and popping in one thread *)

Section QueuePrograms.
Variable T : Type.
Variable T_default : T.


Lemma push_back_all_spec (vs : list T) (q : blocking_queue T) :
  consistent q ->
  exists q', push_back_all vs q = Done (tt, q')
             /\ data_ q' = data_ q ++ vs /\ consistent q'.
Proof.
  revert q. induction vs as [| v vs IH]; intros q Hq.
  - exists q. now rewrite app_nil_r.
  - cbn [push_back_all]. unfold bind at 1.
    rewrite (push_back_spec v Hq).
    match goal with
    | |- context [push_back_all vs ?q1] =>
        destruct (IH q1) as (q' & Hrun & Hdata & Hq')
    end.
    + apply (@consistent_push _ q (data_ q ++ [v]) Hq).
      rewrite length_app. simpl. lia.
    + exists q'. split; [exact Hrun |]. split; [| exact Hq'].
      rewrite Hdata. simpl. now rewrite <- app_assoc.
Qed.

Lemma pop_front_n_spec (vs rest : list T) (q : blocking_queue T) :
  consistent q -> data_ q = vs ++ rest ->
  Z.of_nat (length (data_ q)) < UINT_RANGE ->
  exists q', pop_front_n (length vs) q = Done (vs, q')
             /\ data_ q' = rest /\ consistent q'.
Proof.
  revert q. induction vs as [| v vs IH]; intros q Hq Hd Hlen.
  - exists q. auto.
  - cbn [pop_front_n length]. unfold bind at 1.
    cbn [app] in Hd. rewrite Hd in Hlen. cbn [length] in Hlen.
    assert (Hnz : count_ (e_ q) <> 0).
    { apply consistent_nonzero; [exact Hq |]. rewrite Hd. cbn [length]. lia. }
    destruct Hq as (Hm & He & Hc).
    rewrite (@pop_front_spec T q v (vs ++ rest) Hm He Hnz Hd).
    match goal with
    | |- context [mkQueue ?d ?m ?e ?z] =>
        destruct (IH (mkQueue d m e z)) as (q' & Hrun & Hdata & Hq')
    end.
    + apply (@consistent_pop _ q (vs ++ rest)); [now repeat split |].
      now rewrite Hd.
    + reflexivity.
    + cbn [data_]. lia.
    + unfold bind. rewrite Hrun. exists q'. auto.
Qed.

Lemma pop_back_n_spec (vs rest : list T) (q : blocking_queue T) :
  consistent q -> data_ q = rest ++ rev vs ->
  Z.of_nat (length (data_ q)) < UINT_RANGE ->
  exists q', pop_back_n (length vs) q = Done (vs, q')
             /\ data_ q' = rest /\ consistent q'.
Proof.
  revert q. induction vs as [| v vs IH]; intros q Hq Hd Hlen.
  - exists q. simpl in Hd. rewrite app_nil_r in Hd. auto.
  - cbn [pop_back_n length]. unfold bind at 1.
    simpl in Hd. rewrite app_assoc in Hd.
    assert (Hl : length (data_ q) = S (length (rest ++ rev vs))).
    { rewrite Hd, length_app. simpl. lia. }
    assert (Hnz : count_ (e_ q) <> 0).
    { apply consistent_nonzero; [exact Hq | lia]. }
    destruct Hq as (Hm & He & Hc).
    rewrite (@pop_back_spec T q v (rest ++ rev vs) Hm He Hnz Hd).
    match goal with
    | |- context [mkQueue ?d ?m ?e ?z] =>
        destruct (IH (mkQueue d m e z)) as (q' & Hrun & Hdata & Hq')
    end.
    + apply (@consistent_pop _ q (rest ++ rev vs));
        [now repeat split | exact Hl].
    + reflexivity.
    + cbn [data_]. lia.
    + unfold bind. rewrite Hrun. exists q'. auto.
Qed.

Lemma pop_front_n_zero (n : nat) (q : blocking_queue T) :
  (0 < n)%nat -> count_ (e_ q) = 0 -> pop_front_n n q = Blocked.
Proof.
  destruct n; [lia |]. intros _ Hc.
  cbn [pop_front_n]. unfold bind. now rewrite (pop_front_zero q Hc).
Qed.

Lemma pop_back_n_zero (n : nat) (q : blocking_queue T) :
  (0 < n)%nat -> count_ (e_ q) = 0 -> pop_back_n n q = Blocked.
Proof.
  destruct n; [lia |]. intros _ Hc.
  cbn [pop_back_n]. unfold bind. now rewrite (pop_back_zero q Hc).
Qed.

(** After [2^32] pushes the [int] counter is back at 0. *)
Lemma push_back_all_overflow (vs : list T) (sz0 : Z) :
  Z.of_nat (length vs) = UINT_RANGE ->
  exists q', push_back_all vs (blocking_queue_new T sz0) = Done (tt, q')
             /\ data_ q' = vs /\ count_ (e_ q') = 0.
Proof.
  intros Hlen.
  destruct (push_back_all_spec vs (new_consistent T sz0))
    as (q' & Hrun & Hdata & Hq').
  cbn [data_ blocking_queue_new app] in Hdata.
  exists q'. split; [exact Hrun |]. split; [exact Hdata |].
  destruct Hq' as (_ & _ & Hc). rewrite Hc, Hdata.
  apply wrap_zero_iff. rewrite Hlen. apply Z.mod_same. discriminate.
Qed.

(** C1, as the code has it: for values [v1..vn] with [n < 2^32] (the
    period of the gate's [int] counter), [push_back(v1) .. push_back(vn)]
    on a fresh queue followed by [n] calls of [pop_front()], all in one
    thread, returns [v1..vn] in that order and leaves the queue empty. *)
Theorem fifo_push_back_pop_front (vs : list T) (sz0 : Z) :
  Z.of_nat (length vs) < UINT_RANGE ->
  exists q',
    (push_back_all vs ;; pop_front_n (length vs)) (blocking_queue_new T sz0)
    = Done (vs, q')
    /\ data_ q' = [].
Proof.
  intros Hlen.
  destruct (push_back_all_spec vs (new_consistent T sz0))
    as (q1 & Hrun1 & Hdata1 & Hq1).
  simpl in Hdata1.
  destruct (@pop_front_n_spec vs [] q1 Hq1) as (q2 & Hrun2 & Hdata2 & _).
  - now rewrite app_nil_r.
  - now rewrite Hdata1.
  - exists q2. unfold bind. rewrite Hrun1. auto.
Qed.

(** C2, as the code has it: for values [v1..vn] with [n < 2^32],
    [push_back(v1) .. push_back(vn)] on a fresh queue followed by [n]
    calls of [pop_back()], all in one thread, returns [vn..v1] and leaves
    the queue empty. *)
Theorem lifo_push_back_pop_back (vs : list T) (sz0 : Z) :
  Z.of_nat (length vs) < UINT_RANGE ->
  exists q',
    (push_back_all vs ;; pop_back_n (length vs)) (blocking_queue_new T sz0)
    = Done (rev vs, q')
    /\ data_ q' = [].
Proof.
  intros Hlen.
  destruct (push_back_all_spec vs (new_consistent T sz0))
    as (q1 & Hrun1 & Hdata1 & Hq1).
  simpl in Hdata1.
  destruct (@pop_back_n_spec (rev vs) [] q1 Hq1) as (q2 & Hrun2 & Hdata2 & _).
  - now rewrite rev_involutive.
  - now rewrite Hdata1.
  - exists q2. unfold bind. rewrite Hrun1.
    rewrite length_rev in Hrun2. auto.
Qed.

End QueuePrograms.

Example fifo_three :
  (push_back_all [10; 20; 30] ;; pop_front_n 3) (blocking_queue_new Z 7)
  = Done ([10; 20; 30], blocking_queue_new Z 7).
Proof. reflexivity. Qed.

Example lifo_three :
  (push_back_all [10; 20; 30] ;; pop_back_n 3) (blocking_queue_new Z 7)
  = Done ([30; 20; 10], blocking_queue_new Z 7).
Proof. reflexivity. Qed.

Lemma fifo_push_back_pop_front_witness :
  exists q',
    (push_back_all [10; 20; 30] ;; pop_front_n (length [10; 20; 30]))
      (blocking_queue_new Z 7)
    = Done ([10; 20; 30], q')
    /\ data_ q' = [].
Proof.
  apply (fifo_push_back_pop_front [10; 20; 30] 7). reflexivity.
Defined.

Lemma lifo_push_back_pop_back_witness :
  exists q',
    (push_back_all [10; 20; 30] ;; pop_back_n (length [10; 20; 30]))
      (blocking_queue_new Z 7)
    = Done (rev [10; 20; 30], q')
    /\ data_ q' = [].
Proof.
  apply (lifo_push_back_pop_back [10; 20; 30] 7). reflexivity.
Defined.

Lemma full_round_length : Z.of_nat (length full_round) = UINT_RANGE.
Proof.
  unfold full_round. rewrite repeat_length.
  apply Z2Nat.id. discriminate.
Qed.

(** C1 fails as stated, for every [n]: after [2^32] calls of [push_back]
    the counter of the gate is 0 again and the first [pop_front()] waits,
    although the deque holds [2^32] elements. *)
Lemma fifo_counterexample :
  (push_back_all full_round ;; pop_front_n (length full_round))
    (blocking_queue_new unit 0)
  = Blocked.
Proof.
  destruct (push_back_all_overflow full_round 0 full_round_length)
    as (q' & Hrun & _ & Hc).
  unfold bind. rewrite Hrun.
  apply pop_front_n_zero; [| exact Hc].
  pose proof full_round_length as H. unfold UINT_RANGE in H. lia.
Qed.

(** C2 fails as stated, for every [n]: after [2^32] calls of [push_back]
    the first [pop_back()] waits. *)
Lemma lifo_counterexample :
  (push_back_all full_round ;; pop_back_n (length full_round))
    (blocking_queue_new unit 0)
  = Blocked.
Proof.
  destruct (push_back_all_overflow full_round 0 full_round_length)
    as (q' & Hrun & _ & Hc).
  unfold bind. rewrite Hrun.
  apply pop_back_n_zero; [| exact Hc].
  pose proof full_round_length as H. unfold UINT_RANGE in H. lia.
Qed.

(** ** Consumer iterators *)

Section IteratorFacts.
Variable T : Type.
Variable T_default : T.


(** C3, as the code has it: [a == b] compares the two [end_] flags, so
    it holds exactly when [a] and [b] are in the same state: both at the
    end, or both not at the end (then whatever values they hold); an
    iterator at the end and one that is not are never equal.  [a != b]
    is the negation. *)
Theorem op_eq_same_end_state (a b : consumer_iterator T) :
  (op_eq a b = true <-> end_ a = end_ b)
  /\ (op_eq a b = true <->
      (end_ a = true /\ end_ b = true) \/ (end_ a = false /\ end_ b = false))
  /\ op_neq a b = negb (op_eq a b).
Proof.
  unfold op_neq, op_eq.
  destruct (end_ a), (end_ b); simpl; intuition congruence.
Qed.

Lemma bq_end_spec (q : blocking_queue T) :
  bq_end T_default q = Done (mkIterator T_default false true, q).
Proof. reflexivity. Qed.

(** C10: [rend()] is [end()]; constructing it returns an iterator in the
    end state and leaves the queue (deque, lock, gate) as it was; two
    iterators in the end state compare equal, however they got there. *)
Theorem rend_is_end_sentinel (q : blocking_queue T) :
  bq_rend T_default q = bq_end T_default q
  /\ (exists e, bq_end T_default q = Done (e, q) /\ end_ e = true)
  /\ (forall a b : consumer_iterator T,
         end_ a = true -> end_ b = true ->
         op_eq a b = true /\ op_neq a b = false).
Proof.
  split; [reflexivity |]. split.
  - eexists. split; [apply bq_end_spec | reflexivity].
  - intros a b Ha Hb. unfold op_neq, op_eq. now rewrite Ha, Hb.
Qed.

(** Advancing a detached iterator over an empty queue. *)
Lemma op_incr_detached_empty (it : consumer_iterator T) (q : blocking_queue T) :
  is_detached it = true -> m_ q = Free -> data_ q = [] ->
  op_incr it q = Done (set_end it true, q).
Proof.
  destruct q as [d m e z]; simpl; intros Hd -> ->.
  unfold op_incr, detached_and_empty, bind. rewrite Hd. reflexivity.
Qed.

Lemma op_decr_detached_empty (it : consumer_iterator T) (q : blocking_queue T) :
  is_detached it = true -> m_ q = Free -> data_ q = [] ->
  op_decr it q = Done (set_end it true, q).
Proof.
  destruct q as [d m e z]; simpl; intros Hd -> ->.
  unfold op_decr, detached_and_empty, bind. rewrite Hd. reflexivity.
Qed.

(** Advancing a detached iterator over a queue that holds elements. *)
Lemma op_incr_detached_pop (it : consumer_iterator T) (q : blocking_queue T) (v : T) (d : list T) :
  is_detached it = true -> consistent q -> data_ q = v :: d ->
  Z.of_nat (length (data_ q)) < UINT_RANGE ->
  op_incr it q =
    Done (set_value it v,
          mkQueue d Free
            (mkSemaphore Free (sig_ (e_ q)) (wrap (count_ (e_ q) - 1)))
            (sz q)).
Proof.
  intros Hdet Hq Hd Hlen.
  assert (Hnz : count_ (e_ q) <> 0).
  { apply consistent_nonzero; [exact Hq |]. rewrite Hd in *.
    cbn [length] in *. lia. }
  destruct Hq as (Hm & He & Hc).
  unfold op_incr, detached_and_empty, bind. rewrite Hdet.
  rewrite (size_spec q Hm). unfold ret at 1. rewrite Hd.
  cbn [length].
  replace (Z.of_nat (S (length d)) =? 0) with false
    by (symmetry; apply Z.eqb_neq; lia).
  now rewrite (@pop_front_spec T q v d Hm He Hnz Hd).
Qed.

(** The constructor advances before [detach()] is called: [begin()] pops
    whether or not the queue is empty. *)
Lemma bq_begin_spec (q : blocking_queue T) :
  bq_begin T_default q =
    match pop_front q with
    | Done (v, q') => Done (mkIterator v false false, q')
    | Blocked => Blocked
    | Undefined => Undefined
    | OutOfFuel => OutOfFuel
    end.
Proof.
  unfold bq_begin, consumer_iterator_new, op_incr, detached_and_empty, bind.
  simpl. destruct (pop_front q) as [[v q'] | | |]; reflexivity.
Qed.

Lemma begin_detached_zero (q : blocking_queue T) :
  count_ (e_ q) = 0 -> begin_detached T_default q = Blocked.
Proof.
  intros Hc. unfold begin_detached, bind.
  now rewrite bq_begin_spec, (pop_front_zero q Hc).
Qed.

(** C4, as the code has it: on a queue that is empty at call time, with
    nothing pushed, [begin_detached()] does not return: its constructor
    runs one blocking [pop_front()] before [detach()] is called, so no
    iterator is produced, no element is yielded and the end state is not
    reached.  The detached test governs the advances after construction:
    [operator++] of a detached iterator over an empty queue moves it to
    the end state and leaves the queue untouched. *)
Theorem begin_detached_empty_blocks (q : blocking_queue T) (fuel : nat) :
  consistent q -> data_ q = [] ->
  begin_detached T_default q = Blocked
  /\ traverse_detached T_default fuel q = Blocked
  /\ (forall it : consumer_iterator T,
         is_detached it = true ->
         op_incr it q = Done (set_end it true, q)).
Proof.
  intros Hq Hd.
  assert (Hc : count_ (e_ q) = 0).
  { destruct Hq as (_ & _ & Hc). rewrite Hc, Hd. reflexivity. }
  split; [now apply begin_detached_zero |]. split.
  - unfold traverse_detached, bind. now rewrite begin_detached_zero.
  - intros it Hit. apply op_incr_detached_empty; [exact Hit | apply Hq | exact Hd].
Qed.

(** An iterator in the end state stops the loop. *)
Lemma traverse_at_end (fuel : nat) (it : consumer_iterator T) (acc : list T) (q : blocking_queue T) :
  end_ it = true ->
  traverse T_default (S fuel) it acc q = Done (acc, q).
Proof.
  intros He. cbn [traverse]. unfold bind. rewrite bq_end_spec.
  unfold op_neq, op_eq. rewrite He. reflexivity.
Qed.

Lemma traverse_spec (rest : list T) :
  forall (fuel : nat) (v : T) (acc : list T) (q : blocking_queue T),
    consistent q -> data_ q = rest ->
    Z.of_nat (length rest) < UINT_RANGE ->
    (length rest + 2 <= fuel)%nat ->
    exists q',
      traverse T_default fuel (mkIterator v true false) acc q
      = Done (acc ++ v :: rest, q')
      /\ data_ q' = [] /\ consistent q'.
Proof.
  induction rest as [| w rest IH]; intros fuel v acc q Hq Hd Hlen Hfuel.
  - destruct fuel as [| [| fuel]]; [simpl in Hfuel; lia .. |].
    exists q. split; [| now split].
    cbn [traverse]. unfold bind at 1. rewrite bq_end_spec.
    cbv beta iota delta [op_neq op_eq end_ eqb negb op_deref value_].
    unfold bind at 1.
    rewrite op_incr_detached_empty; [| reflexivity | apply Hq | exact Hd].
    reflexivity.
  - destruct fuel as [| fuel]; [simpl in Hfuel; lia |].
    cbn [traverse]. unfold bind at 1. rewrite bq_end_spec.
    cbv beta iota delta [op_neq op_eq end_ eqb negb op_deref value_].
    unfold bind at 1.
    rewrite (@op_incr_detached_pop _ q w rest);
      [| reflexivity | exact Hq | exact Hd | now rewrite Hd].
    cbv beta match delta [set_value detach_ end_].
    match goal with
    | |- context [mkQueue ?d ?m ?e ?z] =>
        destruct (IH fuel w (acc ++ [v]) (mkQueue d m e z))
          as (q' & Hrun & Hdata & Hq')
    end.
    + apply (@consistent_pop _ q rest); [exact Hq | now rewrite Hd].
    + reflexivity.
    + cbn [length] in Hlen. lia.
    + cbn [length] in Hfuel. lia.
    + exists q'. rewrite Hrun, <- app_assoc. auto.
Qed.

Lemma traverse_detached_spec (q : blocking_queue T) (fuel : nat) :
  consistent q -> data_ q <> [] ->
  Z.of_nat (length (data_ q)) < UINT_RANGE ->
  (length (data_ q) < fuel)%nat ->
  exists q',
    traverse_detached T_default fuel q = Done (data_ q, q')
    /\ data_ q' = [] /\ consistent q'.
Proof.
  intros Hq Hne Hlen Hfuel.
  destruct (data_ q) as [| v d] eqn:Hd; [congruence |].
  assert (Hnz : count_ (e_ q) <> 0).
  { apply consistent_nonzero; [exact Hq | rewrite Hd; cbn [length] in *; lia]. }
  unfold traverse_detached, begin_detached. unfold bind at 1 2.
  rewrite bq_begin_spec.
  rewrite (@pop_front_spec T q v d (proj1 Hq) (proj1 (proj2 Hq)) Hnz Hd).
  cbv beta match delta [ret detach value_ end_].
  match goal with
  | |- context [mkQueue ?d ?m ?e ?z] =>
      destruct (@traverse_spec d fuel v [] (mkQueue d m e z))
        as (q' & Hrun & Hdata & Hq')
  end.
  - apply (@consistent_pop _ q d); [exact Hq | now rewrite Hd].
  - reflexivity.
  - cbn [length] in Hlen. lia.
  - cbn [length] in Hfuel. lia.
  - exists q'. rewrite Hrun. auto.
Qed.

End IteratorFacts.

(** ** Runs of queue operations *)

Section RunFacts.
Variable T : Type.
Variable T_default : T.


(** A consistent queue whose gate is not at 0 holds an element. *)
Lemma consistent_nonempty (q : blocking_queue T) :
  consistent q -> count_ (e_ q) <> 0 -> data_ q <> [].
Proof.
  intros (_ & _ & Hc) Hnz Hd. apply Hnz. rewrite Hc, Hd. reflexivity.
Qed.

Lemma run_op_consistent (o : op T) (q q' : blocking_queue T) :
  consistent q -> run_op o q = Done (tt, q') ->
  consistent q'
  /\ Z.of_nat (length (data_ q')) =
     Z.of_nat (length (data_ q)) + (if is_push o then 1 else -1).
Proof.
  intros Hq Hrun. destruct o as [t | t | |]; cbn [run_op is_push] in *.
  - rewrite (push_back_spec t Hq) in Hrun. injection Hrun as <-.
    cbn [data_]. split.
    + apply consistent_push; [exact Hq |]. rewrite length_app. simpl. lia.
    + rewrite length_app. simpl. lia.
  - rewrite (push_front_spec t Hq) in Hrun. injection Hrun as <-.
    cbn [data_]. split.
    + now apply consistent_push.
    + cbn [length]. lia.
  - unfold bind in Hrun.
    destruct (Z.eq_dec (count_ (e_ q)) 0) as [Hz | Hnz].
    { rewrite (pop_back_zero q Hz) in Hrun. discriminate. }
    pose proof (consistent_nonempty Hq Hnz) as Hne.
    destruct (exists_last Hne) as (d & v & Hd).
    rewrite (@pop_back_spec T q v d (proj1 Hq) (proj1 (proj2 Hq)) Hnz Hd)
      in Hrun.
    injection Hrun as <-. cbn [data_]. split.
    + apply consistent_pop; [exact Hq |].
      rewrite Hd, length_app. simpl. lia.
    + rewrite Hd, length_app. simpl. lia.
  - unfold bind in Hrun.
    destruct (Z.eq_dec (count_ (e_ q)) 0) as [Hz | Hnz].
    { rewrite (pop_front_zero q Hz) in Hrun. discriminate. }
    pose proof (consistent_nonempty Hq Hnz) as Hne.
    destruct (data_ q) as [| v d] eqn:Hd; [congruence |].
    rewrite (@pop_front_spec T q v d (proj1 Hq) (proj1 (proj2 Hq)) Hnz Hd)
      in Hrun.
    injection Hrun as <-. cbn [data_]. split.
    + apply consistent_pop; [exact Hq | now rewrite Hd].
    + cbn [length]. lia.
Qed.

Lemma run_ops_consistent (os : list (op T)) :
  forall q q' : blocking_queue T,
    consistent q -> run_ops os q = Done (tt, q') -> consistent q'.
Proof.
  induction os as [| o os IH]; intros q q' Hq Hrun.
  - injection Hrun as <-. exact Hq.
  - cbn [run_ops] in Hrun. unfold bind in Hrun.
    destruct (run_op o q) as [[[] q1] | | |] eqn:Ho; try discriminate.
    apply (IH q1 q'); [| exact Hrun].
    now destruct (run_op_consistent o Hq Ho).
Qed.

(** Pushes always return, and each adds one element. *)
Lemma run_pushes (os : list (op T)) :
  forall q : blocking_queue T,
    consistent q -> forallb is_push os = true ->
    exists q', run_ops os q = Done (tt, q') /\ consistent q'
               /\ length (data_ q') = (length (data_ q) + length os)%nat.
Proof.
  induction os as [| o os IH]; intros q Hq Hp.
  - exists q. cbn [length]. rewrite Nat.add_0_r. auto.
  - cbn [forallb] in Hp. apply andb_true_iff in Hp as [Ho Hp].
    assert (Hstep : exists q1, run_op o q = Done (tt, q1)).
    { destruct o; try discriminate; cbn [run_op].
      - rewrite (push_back_spec t Hq). eauto.
      - rewrite (push_front_spec t Hq). eauto. }
    destruct Hstep as (q1 & Hq1).
    destruct (run_op_consistent o Hq Hq1) as (Hc1 & Hl1).
    rewrite Ho in Hl1.
    destruct (IH q1 Hc1 Hp) as (q' & Hrun & Hc' & Hl').
    exists q'. cbn [run_ops]. unfold bind. rewrite Hq1.
    split; [exact Hrun |]. split; [exact Hc' |].
    rewrite Hl'. cbn [length]. lia.
Qed.

(** C5, as the code has it: a fresh queue pre-loaded by [k] pushes, with
    [1 <= k < 2^32], and then traversed in the same thread by
    [for (it = begin_detached(); it != end(); ++it)] yields the [k]
    stored elements, front to back, and then reaches the end state with
    the queue empty ([k + 1] tests of the loop condition). *)
Theorem detached_drain_count (os : list (op T)) (sz0 : Z) (fuel : nat) :
  forallb is_push os = true ->
  (1 <= length os)%nat ->
  Z.of_nat (length os) < UINT_RANGE ->
  (length os < fuel)%nat ->
  exists q1 q2,
    run_ops os (blocking_queue_new T sz0) = Done (tt, q1)
    /\ length (data_ q1) = length os
    /\ traverse_detached T_default fuel q1 = Done (data_ q1, q2)
    /\ data_ q2 = [].
Proof.
  intros Hp Hk Hlen Hfuel.
  destruct (run_pushes os (new_consistent T sz0) Hp) as (q1 & Hrun & Hq1 & Hl).
  cbn [blocking_queue_new data_ length Nat.add] in Hl.
  destruct (@traverse_detached_spec T T_default q1 fuel Hq1)
    as (q2 & Htr & Hd2 & _).
  - intros E. rewrite E in Hl. cbn [length] in Hl. lia.
  - now rewrite Hl.
  - now rewrite Hl.
  - exists q1, q2. auto.
Qed.

(** C6, as the code has it: starting from a fresh queue, after every
    completed operation of a one-thread run ([push_back], [push_front],
    and [pop_back], [pop_front], which complete on a non-empty blocking_queue T),
    the counter of the gate is the number of stored elements reduced to
    an [int]; it equals that number as long as the queue holds at most
    [INT_MAX] elements. *)
Theorem gate_mirrors_sequence (os : list (op T)) (sz0 : Z) (q' : blocking_queue T) :
  run_ops os (blocking_queue_new T sz0) = Done (tt, q') ->
  count_ (e_ q') = wrap (Z.of_nat (length (data_ q')))
  /\ (Z.of_nat (length (data_ q')) <= INT_MAX ->
      count_ (e_ q') = Z.of_nat (length (data_ q'))).
Proof.
  intros Hrun.
  destruct (run_ops_consistent os (new_consistent T sz0) Hrun) as (_ & _ & Hc).
  split; [exact Hc |]. intros Hle. rewrite Hc.
  apply wrap_in_range. unfold INT_MIN. lia.
Qed.

(** C7: [size()] returns the length of the deque at the call, whatever
    the member [sz] holds, and leaves the queue as it was; after [N]
    calls of [push_back]/[push_front] on a fresh queue and no pop,
    [size()] returns [N]. *)
Theorem size_is_live_length (os : list (op T)) (sz0 : Z) :
  forallb is_push os = true ->
  (forall (q : blocking_queue T) (x : Z),
      m_ q = Free ->
      size (set_sz q x) = Done (Z.of_nat (length (data_ q)), set_sz q x))
  /\ exists q',
      run_ops os (blocking_queue_new T sz0) = Done (tt, q')
      /\ forall x : Z,
          size (set_sz q' x) = Done (Z.of_nat (length os), set_sz q' x).
Proof.
  intros Hp.
  assert (Hsize : forall (q : blocking_queue T) (x : Z),
             m_ q = Free ->
             size (set_sz q x) = Done (Z.of_nat (length (data_ q)), set_sz q x)).
  { intros q x Hm. now rewrite size_spec. }
  split; [exact Hsize |].
  destruct (run_pushes os (new_consistent T sz0) Hp) as (q' & Hrun & Hq' & Hl).
  exists q'. split; [exact Hrun |]. intros x.
  rewrite (Hsize q' x (proj1 Hq')), Hl. reflexivity.
Qed.

End RunFacts.

(** ** The properties on concrete runs *)

Lemma repeat_push_is_push (n : nat) :
  forallb is_push (repeat (PushBack tt) n) = true.
Proof. induction n as [| n IH]; [reflexivity | exact IH]. Qed.

(** C3 fails as stated: two iterators returned by [begin()], neither in
    the end state, compare equal. *)
Lemma op_eq_counterexample :
  exists (a b : consumer_iterator Z) (q : blocking_queue Z),
    (push_back_all [5; 5] ;;
     a <- bq_begin 0 ;; b <- bq_begin 0 ;; ret (a, b)) (blocking_queue_new Z 0)
    = Done ((a, b), q)
    /\ end_ a = false /\ end_ b = false
    /\ op_eq a b = true.
Proof.
  exists (mkIterator 5 false false), (mkIterator 5 false false),
    (blocking_queue_new Z 0).
  repeat split.
Qed.

Lemma rend_is_end_sentinel_witness :
  op_eq (mkIterator 1 false true) (mkIterator 2 true true) = true
  /\ op_neq (mkIterator 1 false true) (mkIterator 2 true true) = false.
Proof.
  apply (proj2 (proj2 (rend_is_end_sentinel 0 (blocking_queue_new Z 0))));
    reflexivity.
Defined.

(** An iterator that ran off a reverse traversal equals [end()]. *)
Example reverse_end_equals_end :
  (a <- rbegin_detached 0 ;; b <- op_decr a ;; e <- bq_end 0 ;;
   ret (end_ b, op_eq b e))
    (mkQueue [7] Free (semaphore_new 1) 0)
  = Done ((true, true), blocking_queue_new Z 0).
Proof. reflexivity. Qed.

(** C4 fails as stated: on a fresh queue [begin_detached()] does not
    return. *)
Lemma begin_detached_counterexample :
  begin_detached 0 (blocking_queue_new Z 0) = Blocked.
Proof. reflexivity. Qed.

Lemma begin_detached_empty_blocks_witness :
  begin_detached 0 (blocking_queue_new Z 0) = Blocked
  /\ traverse_detached 0 5 (blocking_queue_new Z 0) = Blocked
  /\ (forall it : consumer_iterator Z,
         is_detached it = true ->
         op_incr it (blocking_queue_new Z 0)
         = Done (set_end it true, blocking_queue_new Z 0)).
Proof.
  apply (begin_detached_empty_blocks 0 5%nat (q := blocking_queue_new Z 0)).
  - repeat split.
  - reflexivity.
Defined.

Example detached_drain_three :
  (push_back_all [10; 20; 30] ;; traverse_detached 0 4)
    (blocking_queue_new Z 0)
  = Done ([10; 20; 30], blocking_queue_new Z 0).
Proof. reflexivity. Qed.

Lemma detached_drain_count_witness :
  exists q1 q2,
    run_ops [PushBack 10; PushFront 20; PushBack 30] (blocking_queue_new Z 0)
    = Done (tt, q1)
    /\ length (data_ q1) = length [PushBack 10; PushFront 20; PushBack 30]
    /\ traverse_detached 0 4 q1 = Done (data_ q1, q2)
    /\ data_ q2 = [].
Proof.
  apply (detached_drain_count 0 [PushBack 10; PushFront 20; PushBack 30] 0
           (fuel := 4)).
  - reflexivity.
  - simpl. lia.
  - reflexivity.
  - simpl. lia.
Defined.

(** C5 fails as stated, for every [k >= 1]: a queue pre-loaded by [2^32]
    pushes has its gate at 0, and [begin_detached()] does not return. *)
Lemma repeat_pushes_fresh (n : nat) :
  exists q',
    run_ops (repeat (PushBack tt) n) (blocking_queue_new unit 0) = Done (tt, q')
    /\ consistent q' /\ length (data_ q') = n.
Proof.
  destruct (run_pushes (repeat (PushBack tt) n) (new_consistent unit 0)
              (repeat_push_is_push n)) as (q' & Hrun & Hq' & Hl).
  exists q'. rewrite repeat_length in Hl. auto.
Qed.

Lemma detached_drain_counterexample :
  exists q1,
    run_ops full_round_pushes (blocking_queue_new unit 0) = Done (tt, q1)
    /\ Z.of_nat (length (data_ q1)) = 4294967296
    /\ begin_detached tt q1 = Blocked.
Proof.
  destruct (repeat_pushes_fresh (Z.to_nat UINT_RANGE))
    as (q1 & Hrun & Hq1 & Hl).
  assert (Hlen : Z.of_nat (length (data_ q1)) = 4294967296).
  { rewrite Hl. apply Z2Nat.id. discriminate. }
  exists q1. split; [exact Hrun |]. split; [exact Hlen |].
  apply begin_detached_zero.
  destruct Hq1 as (_ & _ & Hc). rewrite Hc, Hlen. reflexivity.
Qed.

Lemma gate_mirrors_sequence_witness :
  count_ (e_ (mkQueue [2; 1] Free (semaphore_new 2) 9))
  = wrap (Z.of_nat (length (data_ (mkQueue [2; 1] Free (semaphore_new 2) 9))))
  /\ (Z.of_nat (length (data_ (mkQueue [2; 1] Free (semaphore_new 2) 9)))
      <= INT_MAX ->
      count_ (e_ (mkQueue [2; 1] Free (semaphore_new 2) 9))
      = Z.of_nat (length (data_ (mkQueue [2; 1] Free (semaphore_new 2) 9)))).
Proof.
  apply (@gate_mirrors_sequence Z
           [PushBack 1; PushFront 2; PushBack 3; PopBack] 9
           (mkQueue [2; 1] Free (semaphore_new 2) 9)).
  reflexivity.
Defined.

(** C6 fails as stated: after [2^31] calls of [push_back] on a fresh queue
    the deque holds [2^31] elements and the counter of the gate, an [int],
    holds [-2^31]. *)
Lemma gate_mirrors_sequence_counterexample :
  exists q',
    run_ops half_round_pushes (blocking_queue_new unit 0) = Done (tt, q')
    /\ Z.of_nat (length (data_ q')) = 2147483648
    /\ count_ (e_ q') = -2147483648.
Proof.
  destruct (repeat_pushes_fresh (Z.to_nat (INT_MAX + 1)))
    as (q' & Hrun & Hq' & Hl).
  assert (Hlen : Z.of_nat (length (data_ q')) = 2147483648).
  { rewrite Hl. apply Z2Nat.id. discriminate. }
  exists q'. split; [exact Hrun |]. split; [exact Hlen |].
  destruct Hq' as (_ & _ & Hc). rewrite Hc, Hlen. reflexivity.
Qed.

Lemma size_is_live_length_witness :
  (forall (q : blocking_queue Z) (x : Z),
      m_ q = Free ->
      size (set_sz q x) = Done (Z.of_nat (length (data_ q)), set_sz q x))
  /\ exists q',
      run_ops [PushBack 1; PushFront 2; PushBack 3] (blocking_queue_new Z 77)
      = Done (tt, q')
      /\ forall x : Z, size (set_sz q' x) = Done (3, set_sz q' x).
Proof.
  apply (size_is_live_length [PushBack 1; PushFront 2; PushBack 3] 77).
  reflexivity.
Defined.

Example size_after_pops :
  (run_ops [PushBack 1; PushFront 2; PushBack 3; PopFront] ;; @size Z)
    (blocking_queue_new Z 77)
  = Done (2, mkQueue [1; 3] Free (semaphore_new 2) 77).
Proof. reflexivity. Qed.

(** ** The counter of the gate *)

Lemma run_gate_bounds (os : list gate_op) :
  forall s s' : semaphore,
    0 <= count_ s -> count_ s + signals os <= INT_MAX ->
    run_gate os s = Done (tt, s') ->
    0 <= count_ s' <= count_ s + signals os.
Proof.
  unfold signals.
  induction os as [| o os IH]; intros s s' Hlo Hhi Hrun.
  - injection Hrun as <-. simpl in *. lia.
  - cbn [run_gate] in Hrun. unfold bind in Hrun.
    destruct (run_gate_op o s) as [[[] s1] | | |] eqn:Ho; try discriminate.
    destruct o; cbn [run_gate_op filter is_signal length] in *.
    + destruct (mtx_ s) eqn:Hm;
        [| rewrite (SemaphoreFacts.signal_held s Hm) in Ho; discriminate].
      rewrite (SemaphoreFacts.signal_spec s Hm) in Ho. injection Ho as <-.
      assert (Hw : wrap (count_ s + 1) = count_ s + 1).
      { apply wrap_in_range. unfold INT_MIN, INT_MAX in *. lia. }
      rewrite Hw in Hrun.
      apply IH in Hrun; cbn [count_] in *; lia.
    + assert (Hret : exists s2, Semaphore.wait s = Done (tt, s2)) by eauto.
      apply SemaphoreFacts.wait_returns_iff in Hret as [Hm Hnz].
      rewrite (SemaphoreFacts.wait_spec s Hm Hnz) in Ho. injection Ho as <-.
      assert (Hw : wrap (count_ s - 1) = count_ s - 1).
      { apply wrap_in_range. unfold INT_MIN, INT_MAX in *. lia. }
      rewrite Hw in Hrun.
      apply IH in Hrun; cbn [count_] in *; lia.
Qed.

Lemma run_gate_op_range (o : gate_op) (s s' : semaphore) :
  run_gate_op o s = Done (tt, s') -> INT_MIN <= count_ s' <= INT_MAX.
Proof.
  destruct o; cbn [run_gate_op]; intros H.
  - destruct (mtx_ s) eqn:Hm;
      [| rewrite (SemaphoreFacts.signal_held s Hm) in H; discriminate].
    rewrite (SemaphoreFacts.signal_spec s Hm) in H. injection H as <-.
    apply wrap_range.
  - assert (Hret : exists s2, Semaphore.wait s = Done (tt, s2)) by eauto.
    apply SemaphoreFacts.wait_returns_iff in Hret as [Hm Hnz].
    rewrite (SemaphoreFacts.wait_spec s Hm Hnz) in H. injection H as <-.
    apply wrap_range.
Qed.

(** One operation that returns, on a counter that is [>= 0]: the new
    counter is [>= 0] unless the operation is a [signal()] at
    [INT_MAX]. *)
Lemma run_gate_op_nonneg (o : gate_op) (s s' : semaphore) :
  0 <= count_ s <= INT_MAX ->
  run_gate_op o s = Done (tt, s') ->
  (0 <= count_ s' <-> negb (is_signal o) || (count_ s <? INT_MAX) = true).
Proof.
  intros Hc H. destruct o; cbn [run_gate_op is_signal negb orb] in *.
  - destruct (mtx_ s) eqn:Hm;
      [| rewrite (SemaphoreFacts.signal_held s Hm) in H; discriminate].
    rewrite (SemaphoreFacts.signal_spec s Hm) in H. injection H as <-.
    cbn [count_]. rewrite Z.ltb_lt.
    destruct (Z.eq_dec (count_ s) INT_MAX) as [E | E].
    + rewrite E. change (wrap (INT_MAX + 1)) with INT_MIN.
      unfold INT_MIN, INT_MAX. lia.
    + rewrite wrap_in_range by (unfold INT_MIN, INT_MAX in *; lia). lia.
  - assert (Hret : exists s2, Semaphore.wait s = Done (tt, s2)) by eauto.
    apply SemaphoreFacts.wait_returns_iff in Hret as [Hm Hnz].
    rewrite (SemaphoreFacts.wait_spec s Hm Hnz) in H. injection H as <-.
    cbn [count_].
    rewrite wrap_in_range by (unfold INT_MIN, INT_MAX in *; lia).
    split; [reflexivity | lia].
Qed.

Lemma counter_nonneg_along_iff (os : list gate_op) :
  forall s : semaphore,
    INT_MIN <= count_ s <= INT_MAX ->
    (counter_nonneg_along os s = true
     <-> 0 <= count_ s /\ no_signal_at_max os s = true).
Proof.
  induction os as [| o os IH]; intros s Hr;
    cbn [counter_nonneg_along no_signal_at_max].
  - rewrite andb_true_r, Z.leb_le. tauto.
  - rewrite andb_true_iff, Z.leb_le.
    destruct (run_gate_op o s) as [[[] s1] | | |] eqn:Ho; try tauto.
    pose proof (@run_gate_op_range o s s1 Ho) as Hr1.
    rewrite (IH s1 Hr1), andb_true_iff.
    split.
    + intros (H0 & H1 & Hn). split; [exact H0 |]. split; [| exact Hn].
      apply (@run_gate_op_nonneg o s s1); [lia | exact Ho | exact H1].
    + intros (H0 & Hs & Hn). split; [exact H0 |]. split; [| exact Hn].
      apply (@run_gate_op_nonneg o s s1); [lia | exact Ho | exact Hs].
Qed.

Lemma run_gate_final_nonneg (os : list gate_op) :
  forall s s' : semaphore,
    counter_nonneg_along os s = true ->
    run_gate os s = Done (tt, s') -> 0 <= count_ s'.
Proof.
  induction os as [| o os IH]; intros s s' Hinv Hrun;
    cbn [counter_nonneg_along] in Hinv;
    apply andb_true_iff in Hinv as [H0 Hinv].
  - injection Hrun as <-. now apply Z.leb_le.
  - cbn [run_gate] in Hrun. unfold bind in Hrun.
    destruct (run_gate_op o s) as [[[] s1] | | |]; try discriminate.
    apply (IH s1 s' Hinv Hrun).
Qed.

(** C8, as the code has it: for a gate created with an initial count
    [c] (any [int]; the default is 0), the counter is [>= 0] at creation
    and after every completed [signal()] and [wait()] of a one-thread run
    exactly when [c >= 0] and no [signal()] of the run is executed while
    the counter is [INT_MAX]; then the counter is [>= 0] after the whole
    run.  A [wait()] completes exactly when it finds the counter
    different from 0. *)
Theorem gate_counter_nonnegative (c : Z) (os : list gate_op) :
  INT_MIN <= c <= INT_MAX ->
  (counter_nonneg_along os (semaphore_new c) = true
   <-> 0 <= c /\ no_signal_at_max os (semaphore_new c) = true)
  /\ (forall s' : semaphore,
         0 <= c -> no_signal_at_max os (semaphore_new c) = true ->
         run_gate os (semaphore_new c) = Done (tt, s') ->
         0 <= count_ s')
  /\ (forall s : semaphore,
         (exists s2, Semaphore.wait s = Done (tt, s2))
         <-> (mtx_ s = Free /\ count_ s <> 0)).
Proof.
  intros Hr.
  pose proof (counter_nonneg_along_iff os (semaphore_new c) Hr) as Hiff.
  cbn [semaphore_new count_] in Hiff.
  split; [exact Hiff |]. split.
  - intros s' H0 Hn Hrun.
    apply (run_gate_final_nonneg os (semaphore_new c)); [| exact Hrun].
    apply Hiff. now split.
  - apply SemaphoreFacts.wait_returns_iff.
Qed.

(** A gate that lives long: the counter moves between [INT_MAX - 1] and
    [INT_MAX] and no [signal()] runs at [INT_MAX]. *)
Lemma gate_counter_nonnegative_witness :
  (counter_nonneg_along [Signal; Wait; Signal; Wait]
     (semaphore_new (INT_MAX - 1)) = true
   <-> 0 <= INT_MAX - 1
       /\ no_signal_at_max [Signal; Wait; Signal; Wait]
            (semaphore_new (INT_MAX - 1)) = true)
  /\ (forall s' : semaphore,
         0 <= INT_MAX - 1 ->
         no_signal_at_max [Signal; Wait; Signal; Wait]
           (semaphore_new (INT_MAX - 1)) = true ->
         run_gate [Signal; Wait; Signal; Wait] (semaphore_new (INT_MAX - 1))
         = Done (tt, s') ->
         0 <= count_ s')
  /\ (forall s : semaphore,
         (exists s2, Semaphore.wait s = Done (tt, s2))
         <-> (mtx_ s = Free /\ count_ s <> 0)).
Proof.
  apply (@gate_counter_nonnegative (INT_MAX - 1) [Signal; Wait; Signal; Wait]).
  vm_compute. split; discriminate.
Defined.

Example long_lived_gate :
  run_gate [Signal; Wait; Signal; Wait] (semaphore_new (INT_MAX - 1))
  = Done (tt, semaphore_new (INT_MAX - 1))
  /\ counter_nonneg_along [Signal; Wait; Signal; Wait]
       (semaphore_new (INT_MAX - 1)) = true.
Proof. split; reflexivity. Qed.

(** C8 fails as stated, for every gate: [semaphore(-1)] starts below 0,
    and [wait()] on it returns at once and lowers the counter further;
    and a [signal()] on a gate at [INT_MAX] leaves the counter at
    [INT_MIN]. *)
Lemma gate_counter_counterexample :
  count_ (semaphore_new (-1)) = -1
  /\ Semaphore.wait (semaphore_new (-1)) = Done (tt, semaphore_new (-2))
  /\ Semaphore.signal (semaphore_new 2147483647)
     = Done (tt, semaphore_new (-2147483648)).
Proof. repeat split. Qed.

(** A gate at [INT_MAX] goes below 0 on the next [signal()]. *)
Example signal_at_int_max :
  Semaphore.signal (semaphore_new INT_MAX) = Done (tt, semaphore_new INT_MIN).
Proof. reflexivity. Qed.

(** ** The gate under interleaving *)

Module InterleavingFacts.
Import Interleaving.

(** One thread alone runs the statements of [signal()] and [wait()] to
    the outcome of the call. *)
Lemma run_thread_signal (n : nat) (s : semaphore) :
  run_thread (5 + n) SignalLock s = Semaphore.signal s.
Proof.
  destruct s as [[|] g c]; reflexivity.
Qed.

Lemma run_thread_step (n : nat) (p : pc) (s : semaphore) :
  run_thread (S n) p s =
    if returned p then Done (tt, s)
    else match thread_step p s with
         | Some (p', s') => run_thread n p' s'
         | None => Blocked
         end.
Proof. destruct p; reflexivity. Qed.

Lemma run_thread_wait (n : nat) (s : semaphore) :
  run_thread (7 + n) WaitLock s = Semaphore.wait s.
Proof.
  destruct s as [[|] g c]; [| reflexivity].
  change (7 + n)%nat with (S (S (S (S (S (S (S n))))))).
  destruct (Z.eqb_spec c 0) as [-> | Hne].
  - destruct g; reflexivity.
  - rewrite SemaphoreFacts.wait_spec by (try reflexivity; exact Hne).
    apply Z.eqb_neq in Hne.
    rewrite run_thread_step. cbn -[run_thread wrap Z.eqb].
    rewrite run_thread_step. cbn -[run_thread wrap Z.eqb].
    rewrite Hne. reflexivity.
Qed.

(** A [signal()] that runs before the [wait()] lets it return. *)
Example signal_then_wait :
  run [1; 1; 1; 1; 0; 0; 0; 0]%nat
    (mkSystem (semaphore_new 0) [WaitLock; SignalLock])
  = mkSystem (semaphore_new 0) [Returned; Returned].
Proof. reflexivity. Qed.

Lemma at_entry_no_step (p : pc) (s : semaphore) :
  at_entry p = true -> mtx_ s = Taken -> thread_step p s = None.
Proof.
  destruct s as [m g c]; simpl; intros Hp ->.
  destruct p; try discriminate; reflexivity.
Qed.

Lemma forallb_nth_error (f : pc -> bool) (l : list pc) (i : nat) (p : pc) :
  forallb f l = true -> nth_error l i = Some p -> f p = true.
Proof.
  revert i. induction l as [| x l IH]; intros [| i] Hall Hnth;
    simpl in *; try discriminate; apply andb_true_iff in Hall as [Hx Hl].
  - now injection Hnth as <-.
  - now apply (IH i).
Qed.

Lemma waiting_turn (others : list pc) (st : system) (i : nat) :
  forallb at_entry others = true ->
  waiting others st -> waiting others (turn st i).
Proof.
  intros Hall (Hm & Hc & p & Hth & Hp).
  destruct st as [g ths]; cbn [gate threads] in *; subst ths.
  unfold turn; cbn [gate threads].
  destruct i as [| i]; cbn [nth_error].
  - destruct g as [m sg c]; cbn [mtx_ count_] in *; subst m c.
    destruct Hp as [-> | ->]; cbn.
    + repeat split. exists WaitSigLock. auto.
    + destruct sg; cbn.
      * repeat split. exists WaitTest. auto.
      * repeat split. exists WaitSigLock. auto.
  - destruct (nth_error others i) as [p' |] eqn:Hn.
    + rewrite (@at_entry_no_step p' g (@forallb_nth_error _ _ _ _ Hall Hn) Hm).
      unfold waiting; cbn [gate threads]. eauto.
    + unfold waiting; cbn [gate threads]. eauto.
Qed.

Lemma waiting_run (others : list pc) (schedule : list nat) :
  forallb at_entry others = true ->
  forall st, waiting others st -> waiting others (run schedule st).
Proof.
  intros Hall. unfold run.
  induction schedule as [| i schedule IH]; intros st Hst; [exact Hst |].
  cbn [fold_left]. apply IH. now apply waiting_turn.
Qed.

Lemma at_entry_not_returned (l : list pc) :
  forallb at_entry l = true -> existsb returned l = false.
Proof.
  induction l as [| p l IH]; [reflexivity |]. simpl. intros H.
  apply andb_true_iff in H as [Hp Hl]. rewrite (IH Hl).
  destruct p; try discriminate; reflexivity.
Qed.

(** C9 on the code: a gate at 0, one thread that calls [wait()] and
    takes the first turn, and any number of other threads that call
    [signal()] (or [wait()]).  Under every schedule no call ever returns
    and the counter stays 0: the waiter holds [mtx_] while it waits, so
    no [signal()] gets past its first statement and the waiter is never
    woken. *)
Theorem waiter_never_woken (others : list pc) (schedule : list nat) :
  forallb at_entry others = true ->
  let st := run (0%nat :: schedule)
              (mkSystem (semaphore_new 0) (WaitLock :: others)) in
  count_ (gate st) = 0
  /\ tl (threads st) = others
  /\ existsb returned (threads st) = false.
Proof.
  intros Hall st.
  assert (Hw : waiting others st).
  { subst st. unfold run. cbn [fold_left].
    apply (@waiting_run others schedule Hall).
    repeat split. exists WaitTest. auto. }
  destruct Hw as (_ & Hc & p & Hth & Hp).
  split; [exact Hc |]. rewrite Hth. split; [reflexivity |].
  cbn [existsb]. rewrite (@at_entry_not_returned others Hall).
  destruct Hp as [-> | ->]; reflexivity.
Qed.

Lemma waiter_never_woken_witness :
  let st := run [0; 1; 0; 1; 0; 1; 1; 0]%nat
              (mkSystem (semaphore_new 0) [WaitLock; SignalLock]) in
  count_ (gate st) = 0
  /\ tl (threads st) = [SignalLock]
  /\ existsb returned (threads st) = false.
Proof.
  apply (@waiter_never_woken [SignalLock] [1; 0; 1; 0; 1; 1; 0]%nat).
  reflexivity.
Defined.

(** The state that schedule ends in: the waiter at [sig_.lock()] with
    [sig_] taken, the signaller at the lock of [mtx_]. *)
Example waiter_and_signaller_stuck :
  run [0; 1; 0; 1; 0; 1; 1; 0]%nat
    (mkSystem (semaphore_new 0) [WaitLock; SignalLock])
  = mkSystem (mkSemaphore Taken Taken 0) [WaitSigLock; SignalLock].
Proof. reflexivity. Qed.

End InterleavingFacts.

(** * Further properties of the queue *)

Lemma wrap_idem (z : Z) : wrap (wrap z) = wrap z.
Proof.
  apply wrap_in_range. apply wrap_range.
Qed.

Section MoreQueueFacts.
Variable T : Type.
Variable T_default : T.

Lemma push_front_all_spec (vs : list T) :
  forall q : blocking_queue T,
    consistent q ->
    exists q', push_front_all vs q = Done (tt, q')
               /\ data_ q' = rev vs ++ data_ q /\ consistent q'.
Proof.
  induction vs as [| v vs IH]; intros q Hq.
  - exists q. auto.
  - cbn [push_front_all]. unfold bind at 1.
    rewrite (push_front_spec v Hq).
    match goal with
    | |- context [push_front_all vs ?q1] =>
        destruct (IH q1) as (q' & Hrun & Hdata & Hq')
    end.
    + now apply consistent_push.
    + exists q'. split; [exact Hrun |]. split; [| exact Hq'].
      rewrite Hdata. cbn [data_ rev]. now rewrite <- app_assoc.
Qed.

(** X1. The first element pushed at the front is the first popped at the
    back: [push_front(v1) .. push_front(vn)] on a fresh queue and then [n]
    calls of [pop_back()], [n < 2^32], return [v1..vn]. *)
Theorem fifo_push_front_pop_back (vs : list T) (sz0 : Z) :
  Z.of_nat (length vs) < UINT_RANGE ->
  exists q',
    (push_front_all vs ;; pop_back_n (length vs)) (blocking_queue_new T sz0)
    = Done (vs, q')
    /\ data_ q' = [].
Proof.
  intros Hlen.
  destruct (push_front_all_spec vs (new_consistent T sz0))
    as (q1 & Hrun1 & Hdata1 & Hq1).
  cbn [blocking_queue_new data_] in Hdata1. rewrite app_nil_r in Hdata1.
  destruct (@pop_back_n_spec T vs [] q1 Hq1) as (q2 & Hrun2 & Hdata2 & _).
  - exact Hdata1.
  - now rewrite Hdata1, length_rev.
  - exists q2. unfold bind. rewrite Hrun1. auto.
Qed.

(** X2. The last element pushed at the front is the first popped at the
    front: [push_front(v1) .. push_front(vn)] on a fresh queue and then
    [n] calls of [pop_front()], [n < 2^32], return [vn..v1]. *)
Theorem lifo_push_front_pop_front (vs : list T) (sz0 : Z) :
  Z.of_nat (length vs) < UINT_RANGE ->
  exists q',
    (push_front_all vs ;; pop_front_n (length vs)) (blocking_queue_new T sz0)
    = Done (rev vs, q')
    /\ data_ q' = [].
Proof.
  intros Hlen.
  destruct (push_front_all_spec vs (new_consistent T sz0))
    as (q1 & Hrun1 & Hdata1 & Hq1).
  cbn [blocking_queue_new data_] in Hdata1. rewrite app_nil_r in Hdata1.
  destruct (@pop_front_n_spec T (rev vs) [] q1 Hq1) as (q2 & Hrun2 & Hdata2 & _).
  - now rewrite app_nil_r.
  - now rewrite Hdata1, length_rev.
  - exists q2. unfold bind. rewrite Hrun1.
    rewrite length_rev in Hrun2. auto.
Qed.

(** X3. A push undone at the same end: on a queue between two calls that
    holds fewer than [2^32 - 1] elements, [push_back(v)] then [pop_back()]
    returns [v], and so does [push_front(v)] then [pop_front()]; each
    leaves the elements, the counter of the gate, the locks and [sz] as
    they were. *)
Theorem push_pop_same_end (v : T) (q : blocking_queue T) :
  consistent q ->
  Z.of_nat (length (data_ q)) + 1 < UINT_RANGE ->
  let q' := mkQueue (data_ q) Free
              (mkSemaphore Free Free (count_ (e_ q))) (sz q) in
  (push_back v ;; @pop_back T) q = Done (v, q')
  /\ (push_front v ;; @pop_front T) q = Done (v, q').
Proof.
  intros Hq Hlen q'.
  assert (Hcount : wrap (wrap (count_ (e_ q) + 1) - 1) = count_ (e_ q)).
  { change (?x - 1) with (x + -1). rewrite wrap_add_l.
    replace (count_ (e_ q) + 1 + -1) with (count_ (e_ q)) by lia.
    destruct Hq as (_ & _ & Hc). rewrite Hc. apply wrap_idem. }
  assert (Hnz : wrap (count_ (e_ q) + 1) <> 0).
  { destruct Hq as (_ & _ & Hc). rewrite Hc, wrap_add_l.
    apply wrap_nonzero. lia. }
  split; unfold bind.
  - rewrite (push_back_spec v Hq).
    erewrite pop_back_spec; [| reflexivity | reflexivity | exact Hnz | reflexivity].
    cbn [sig_ e_ count_ sz]. now rewrite Hcount.
  - rewrite (push_front_spec v Hq).
    erewrite pop_front_spec; [| reflexivity | reflexivity | exact Hnz | reflexivity].
    cbn [sig_ e_ count_ sz]. now rewrite Hcount.
Qed.

(** X4. Nothing to take: on an empty queue between two calls, [pop_front()],
    [pop_back()], [begin()], [rbegin()] and [rbegin_detached()] do not
    return in a thread that runs alone. *)
Theorem empty_queue_blocks (q : blocking_queue T) :
  consistent q -> data_ q = [] ->
  pop_front q = Blocked
  /\ pop_back q = Blocked
  /\ bq_begin T_default q = Blocked
  /\ bq_rbegin T_default q = Blocked
  /\ rbegin_detached T_default q = Blocked.
Proof.
  intros (_ & _ & Hc) Hd.
  assert (Hz : count_ (e_ q) = 0) by (rewrite Hc, Hd; reflexivity).
  pose proof (pop_front_zero q Hz) as Hf.
  pose proof (pop_back_zero q Hz) as Hb.
  repeat split; try assumption.
  - now rewrite bq_begin_spec, Hf.
  - unfold bq_rbegin, consumer_iterator_new, op_decr, detached_and_empty, bind.
    cbn [is_detached detach_ ret]. now rewrite Hb.
  - unfold rbegin_detached, bq_rbegin, consumer_iterator_new, op_decr,
      detached_and_empty, bind.
    cbn [is_detached detach_ ret]. now rewrite Hb.
Qed.

Lemma run_ops_length (os : list (op T)) :
  forall q q' : blocking_queue T,
    consistent q -> run_ops os q = Done (tt, q') ->
    consistent q'
    /\ Z.of_nat (length (data_ q')) =
       Z.of_nat (length (data_ q)) + pushes os - pops os.
Proof.
  unfold pushes, pops.
  induction os as [| o os IH]; intros q q' Hq Hrun.
  - injection Hrun as <-. cbn [filter length]. split; [exact Hq | lia].
  - cbn [run_ops] in Hrun. unfold bind in Hrun.
    destruct (run_op o q) as [[[] q1] | | |] eqn:Ho; try discriminate.
    destruct (run_op_consistent o Hq Ho) as (Hq1 & Hl1).
    destruct (IH q1 q' Hq1 Hrun) as (Hq' & Hl').
    split; [exact Hq' |]. rewrite Hl', Hl1. cbn [filter].
    destruct (is_push o); cbn [negb length]; lia.
Qed.

(** X5. After any completed run of pushes and pops on a fresh queue, [size()]
    returns the number of pushes minus the number of pops, and leaves the
    queue as it was. *)
Theorem size_counts_pushes_minus_pops
  (os : list (op T)) (sz0 : Z) (q' : blocking_queue T) :
  run_ops os (blocking_queue_new T sz0) = Done (tt, q') ->
  size q' = Done (pushes os - pops os, q').
Proof.
  intros Hrun.
  destruct (run_ops_length os (new_consistent T sz0) Hrun) as (Hq' & Hl).
  rewrite (size_spec q' (proj1 Hq')), Hl. reflexivity.
Qed.

End MoreQueueFacts.

(** ** The queue against a plain double-ended sequence *)

Section Refinement.
Variable T : Type.

Lemma run_op_out_spec (o : op T) (q : blocking_queue T) :
  consistent q ->
  Z.of_nat (length (data_ q)) + 1 < UINT_RANGE ->
  match deque_step o (data_ q) with
  | Some (r, d') =>
      exists q', run_op_out o q = Done (r, q')
                 /\ data_ q' = d' /\ consistent q'
                 /\ (length (data_ q') <= S (length (data_ q)))%nat
  | None => run_op_out o q = Blocked
  end.
Proof.
  intros Hq Hlen. destruct o as [t | t | |]; cbn [deque_step run_op_out].
  - unfold bind. rewrite (push_back_spec t Hq). eexists.
    split; [reflexivity |]. split; [reflexivity |]. cbn [data_]. split.
    + apply consistent_push; [exact Hq |]. rewrite length_app. simpl. lia.
    + rewrite length_app. simpl. lia.
  - unfold bind. rewrite (push_front_spec t Hq). eexists.
    split; [reflexivity |]. split; [reflexivity |]. cbn [data_]. split.
    + now apply consistent_push.
    + cbn [length]. lia.
  - destruct (rev (data_ q)) as [| v r] eqn:Hr.
    + assert (Hd : data_ q = []).
      { rewrite <- (rev_involutive (data_ q)), Hr. reflexivity. }
      unfold bind. rewrite pop_back_zero; [reflexivity |].
      destruct Hq as (_ & _ & Hc). rewrite Hc, Hd. reflexivity.
    + assert (Hd : data_ q = rev r ++ [v]).
      { rewrite <- (rev_involutive (data_ q)), Hr. reflexivity. }
      assert (Hl : length (data_ q) = S (length (rev r))).
      { rewrite Hd, length_app. simpl. lia. }
      assert (Hnz : count_ (e_ q) <> 0).
      { apply consistent_nonzero; [exact Hq | lia]. }
      unfold bind.
      rewrite (@pop_back_spec T q v (rev r) (proj1 Hq) (proj1 (proj2 Hq)) Hnz Hd).
      eexists. split; [reflexivity |]. split; [reflexivity |].
      cbn [data_]. split; [| lia].
      apply consistent_pop; [exact Hq | exact Hl].
  - destruct (data_ q) as [| v r] eqn:Hd.
    + unfold bind. rewrite pop_front_zero; [reflexivity |].
      destruct Hq as (_ & _ & Hc). rewrite Hc, Hd. reflexivity.
    + assert (Hnz : count_ (e_ q) <> 0).
      { apply consistent_nonzero; [exact Hq |]. rewrite Hd in *.
        cbn [length] in *. lia. }
      unfold bind.
      rewrite (@pop_front_spec T q v r (proj1 Hq) (proj1 (proj2 Hq)) Hnz Hd).
      eexists. split; [reflexivity |]. split; [reflexivity |].
      cbn [data_ length]. split; [| lia].
      apply consistent_pop; [exact Hq | now rewrite Hd].
Qed.

(** X6. A run of pushes and pops by one thread does what the same operations
    do on a plain double-ended sequence, as long as the counter of the
    gate cannot go round (elements held plus operations below [2^32]):
    the pops return the same elements in the same order and the same
    elements are left; where the sequence would be popped empty, the run
    does not return. *)
Theorem run_ops_refines_deque (os : list (op T)) :
  forall q : blocking_queue T,
    consistent q ->
    Z.of_nat (length (data_ q) + length os) < UINT_RANGE ->
    match deque_run os (data_ q) with
    | Some (outs, d') =>
        exists q', run_ops_trace os q = Done (outs, q')
                   /\ data_ q' = d' /\ consistent q'
    | None => run_ops_trace os q = Blocked
    end.
Proof.
  induction os as [| o os IH]; intros q Hq Hlen.
  - cbn [deque_run run_ops_trace]. exists q. auto.
  - cbn [deque_run run_ops_trace]. cbn [length] in Hlen.
    pose proof (@run_op_out_spec o q Hq ltac:(lia)) as Hstep.
    destruct (deque_step o (data_ q)) as [[r d1] |].
    + destruct Hstep as (q1 & Hrun1 & Hd1 & Hq1 & Hl1).
      specialize (IH q1 Hq1 ltac:(lia)). rewrite Hd1 in IH.
      destruct (deque_run os d1) as [[outs d2] |].
      * destruct IH as (q2 & Hrun2 & Hd2 & Hq2).
        exists q2. unfold bind. rewrite Hrun1, Hrun2. auto.
      * unfold bind. now rewrite Hrun1, IH.
    + unfold bind at 1. now rewrite Hstep.
Qed.

End Refinement.

Lemma run_ops_refines_deque_witness :
  exists q',
    run_ops_trace [PushBack 1; PushFront 2; PopBack; PushBack 3; PopFront]
      (blocking_queue_new Z 0)
    = Done ([1; 2], q')
    /\ data_ q' = [3] /\ consistent q'.
Proof.
  apply (@run_ops_refines_deque Z
           [PushBack 1; PushFront 2; PopBack; PushBack 3; PopFront]
           (blocking_queue_new Z 0)).
  - repeat split.
  - reflexivity.
Defined.

Example run_ops_pop_too_many :
  run_ops_trace [PushBack 1; PopFront; PopFront; PushBack 2]
    (blocking_queue_new Z 0)
  = Blocked.
Proof. reflexivity. Qed.

Lemma fifo_push_front_pop_back_witness :
  exists q',
    (push_front_all [10; 20; 30] ;; pop_back_n (length [10; 20; 30]))
      (blocking_queue_new Z 7)
    = Done ([10; 20; 30], q')
    /\ data_ q' = [].
Proof.
  apply (fifo_push_front_pop_back [10; 20; 30] 7). reflexivity.
Defined.

Lemma lifo_push_front_pop_front_witness :
  exists q',
    (push_front_all [10; 20; 30] ;; pop_front_n (length [10; 20; 30]))
      (blocking_queue_new Z 7)
    = Done (rev [10; 20; 30], q')
    /\ data_ q' = [].
Proof.
  apply (lifo_push_front_pop_front [10; 20; 30] 7). reflexivity.
Defined.

Lemma push_pop_same_end_witness :
  (push_back 9 ;; @pop_back Z) (mkQueue [1; 2] Free (semaphore_new 2) 5)
  = Done (9, mkQueue [1; 2] Free (semaphore_new 2) 5)
  /\ (push_front 9 ;; @pop_front Z) (mkQueue [1; 2] Free (semaphore_new 2) 5)
     = Done (9, mkQueue [1; 2] Free (semaphore_new 2) 5).
Proof.
  apply (@push_pop_same_end Z 9 (mkQueue [1; 2] Free (semaphore_new 2) 5)).
  - repeat split.
  - reflexivity.
Defined.

Lemma empty_queue_blocks_witness :
  pop_front (blocking_queue_new Z 0) = Blocked
  /\ pop_back (blocking_queue_new Z 0) = Blocked
  /\ bq_begin 0 (blocking_queue_new Z 0) = Blocked
  /\ bq_rbegin 0 (blocking_queue_new Z 0) = Blocked
  /\ rbegin_detached 0 (blocking_queue_new Z 0) = Blocked.
Proof.
  apply (@empty_queue_blocks Z 0 (blocking_queue_new Z 0)).
  - repeat split.
  - reflexivity.
Defined.

Lemma size_counts_pushes_minus_pops_witness :
  size (mkQueue [2; 1] Free (semaphore_new 2) 9)
  = Done (pushes [PushBack 1; PushFront 2; PushBack 3; PopBack]
          - pops [PushBack 1; PushFront 2; PushBack 3; @PopBack Z],
          mkQueue [2; 1] Free (semaphore_new 2) 9).
Proof.
  apply (@size_counts_pushes_minus_pops Z
           [PushBack 1; PushFront 2; PushBack 3; PopBack] 9
           (mkQueue [2; 1] Free (semaphore_new 2) 9)).
  reflexivity.
Defined.

(** * Further properties of the consumer iterator *)

Section MoreIteratorFacts.
Variable T : Type.
Variable T_default : T.

Lemma bq_rbegin_spec (q : blocking_queue T) :
  bq_rbegin T_default q =
    match pop_back q with
    | Done (v, q') => Done (mkIterator v false false, q')
    | Blocked => Blocked
    | Undefined => Undefined
    | OutOfFuel => OutOfFuel
    end.
Proof.
  unfold bq_rbegin, consumer_iterator_new, op_decr, detached_and_empty, bind.
  simpl. destruct (pop_back q) as [[v q'] | | |]; reflexivity.
Qed.

Lemma op_decr_detached_pop
  (it : consumer_iterator T) (q : blocking_queue T) (v : T) (d : list T) :
  is_detached it = true -> consistent q -> data_ q = d ++ [v] ->
  Z.of_nat (length (data_ q)) < UINT_RANGE ->
  op_decr it q =
    Done (set_value it v,
          mkQueue d Free
            (mkSemaphore Free (sig_ (e_ q)) (wrap (count_ (e_ q) - 1)))
            (sz q)).
Proof.
  intros Hdet Hq Hd Hlen.
  assert (Hl : length (data_ q) = S (length d)).
  { rewrite Hd, length_app. simpl. lia. }
  assert (Hnz : count_ (e_ q) <> 0).
  { apply consistent_nonzero; [exact Hq | lia]. }
  destruct Hq as (Hm & He & Hc).
  unfold op_decr, detached_and_empty, bind. rewrite Hdet.
  rewrite (size_spec q Hm). unfold ret at 1. rewrite Hl.
  replace (Z.of_nat (S (length d)) =? 0) with false
    by (symmetry; apply Z.eqb_neq; lia).
  now rewrite (@pop_back_spec T q v d Hm He Hnz Hd).
Qed.

(** X7. [begin()] takes the front element out of the queue and holds it,
    [rbegin()] the back element; the iterator is neither detached nor at
    the end, and differs from [end()]. *)
Theorem begin_takes_front_rbegin_takes_back
  (q : blocking_queue T) (v w : T) (d : list T) :
  consistent q -> data_ q = v :: d ++ [w] ->
  Z.of_nat (length (data_ q)) < UINT_RANGE ->
  (exists q1, bq_begin T_default q = Done (mkIterator v false false, q1)
              /\ data_ q1 = d ++ [w] /\ consistent q1)
  /\ (exists q2, bq_rbegin T_default q = Done (mkIterator w false false, q2)
                 /\ data_ q2 = v :: d /\ consistent q2)
  /\ (forall (it : consumer_iterator T) (q' : blocking_queue T),
         end_ it = false ->
         (e <- bq_end T_default ;; ret (op_neq it e)) q' = Done (true, q')).
Proof.
  intros Hq Hd Hlen.
  assert (Hnz : count_ (e_ q) <> 0).
  { apply consistent_nonzero; [exact Hq |]. rewrite Hd in *.
    cbn [length] in *. lia. }
  split; [| split].
  - rewrite bq_begin_spec.
    rewrite (@pop_front_spec T q v (d ++ [w])
               (proj1 Hq) (proj1 (proj2 Hq)) Hnz Hd).
    eexists. split; [reflexivity |]. split; [reflexivity |].
    apply consistent_pop; [exact Hq | now rewrite Hd].
  - rewrite bq_rbegin_spec.
    rewrite (@pop_back_spec T q w (v :: d)
               (proj1 Hq) (proj1 (proj2 Hq)) Hnz Hd).
    eexists. split; [reflexivity |]. split; [reflexivity |].
    apply consistent_pop; [exact Hq |].
    rewrite Hd. cbn [length]. rewrite length_app. simpl. lia.
  - intros it q' He. unfold bind. rewrite bq_end_spec.
    unfold ret, op_neq, op_eq. cbn [end_]. now rewrite He.
Qed.

(** X8. What an advance can do to the flags: [operator++] and [operator--]
    never change [detach_] and never take an iterator out of the end
    state; they put an iterator into the end state only when it is
    detached and the queue is empty, and then leave the queue alone. *)
Theorem advance_flags
  (it it' : consumer_iterator T) (q q' : blocking_queue T) :
  op_incr it q = Done (it', q') \/ op_decr it q = Done (it', q') ->
  detach_ it' = detach_ it
  /\ (end_ it = true -> end_ it' = true)
  /\ (end_ it = false -> end_ it' = true ->
      detach_ it = true /\ data_ q = [] /\ q' = q).
Proof.
  assert (Hsize : forall b q1,
             detached_and_empty it q = Done (b, q1) ->
             q1 = q /\ (b = true -> detach_ it = true /\ data_ q = [])).
  { unfold detached_and_empty, is_detached. intros b q1 H.
    destruct (detach_ it).
    - unfold bind in H. destruct (m_ q) eqn:Hm.
      + rewrite (size_spec q Hm) in H. unfold ret in H.
        injection H as <- <-. split; [reflexivity |].
        intros Hz. apply Z.eqb_eq in Hz. split; [reflexivity |].
        destruct (data_ q); [reflexivity | discriminate].
      + destruct q as [d m e z]; cbn in Hm; subst m. discriminate.
    - injection H as <- <-. split; [reflexivity | discriminate]. }
  intros [H | H].
  - unfold op_incr, bind in H.
    destruct (detached_and_empty it q) as [[b q1] | | |] eqn:Hs;
      try discriminate.
    destruct (Hsize b q1 eq_refl) as (-> & Hb).
    destruct b.
    + injection H as <- <-. destruct (Hb eq_refl) as (Hdet & Hd).
      cbn [set_end detach_ end_]. auto.
    + destruct (pop_front q) as [[v q2] | | |]; try discriminate.
      injection H as <- <-. cbn [set_value detach_ end_].
      split; [reflexivity |]. split; [auto | congruence].
  - unfold op_decr, bind in H.
    destruct (detached_and_empty it q) as [[b q1] | | |] eqn:Hs;
      try discriminate.
    destruct (Hsize b q1 eq_refl) as (-> & Hb).
    destruct b.
    + injection H as <- <-. destruct (Hb eq_refl) as (Hdet & Hd).
      cbn [set_end detach_ end_]. auto.
    + destruct (pop_back q) as [[v q2] | | |]; try discriminate.
      injection H as <- <-. cbn [set_value detach_ end_].
      split; [reflexivity |]. split; [auto | congruence].
Qed.


Lemma traverse_back_spec (r : list T) :
  forall (fuel : nat) (v : T) (acc : list T) (q : blocking_queue T),
    consistent q -> data_ q = rev r ->
    Z.of_nat (length r) < UINT_RANGE ->
    (length r + 2 <= fuel)%nat ->
    exists q',
      traverse_back T_default fuel (mkIterator v true false) acc q
      = Done (acc ++ v :: r, q')
      /\ data_ q' = [] /\ consistent q'.
Proof.
  induction r as [| w r IH]; intros fuel v acc q Hq Hd Hlen Hfuel.
  - destruct fuel as [| [| fuel]]; [simpl in Hfuel; lia .. |].
    exists q. split; [| now split].
    cbn [traverse_back]. unfold bind at 1. unfold bq_rend. rewrite bq_end_spec.
    cbv beta iota delta [op_neq op_eq end_ eqb negb op_deref value_].
    unfold bind at 1.
    rewrite op_decr_detached_empty; [| reflexivity | apply Hq | exact Hd].
    reflexivity.
  - destruct fuel as [| fuel]; [simpl in Hfuel; lia |].
    cbn [rev] in Hd.
    assert (Hlq : length (data_ q) = S (length r)).
    { rewrite Hd, length_app, length_rev. simpl. lia. }
    cbn [traverse_back]. unfold bind at 1. unfold bq_rend. rewrite bq_end_spec.
    cbv beta iota delta [op_neq op_eq end_ eqb negb op_deref value_].
    unfold bind at 1.
    rewrite (@op_decr_detached_pop _ q w (rev r));
      [| reflexivity | exact Hq | exact Hd | cbn [length] in Hlen; lia].
    cbv beta match delta [set_value detach_ end_].
    match goal with
    | |- context [mkQueue ?d ?m ?e ?z] =>
        destruct (IH fuel w (acc ++ [v]) (mkQueue d m e z))
          as (q' & Hrun & Hdata & Hq')
    end.
    + apply (@consistent_pop _ q (rev r)); [exact Hq |].
      now rewrite Hlq, length_rev.
    + reflexivity.
    + cbn [length] in Hlen. lia.
    + cbn [length] in Hfuel. lia.
    + exists q'. rewrite Hrun, <- app_assoc. auto.
Qed.

(** X10. The reverse detached traversal: on a queue between two calls that
    holds [k] elements, [1 <= k < 2^32], the loop
    [for (it = rbegin_detached(); it != rend(); --it)] yields the [k]
    elements from the back to the front and ends with the queue empty. *)
Theorem reverse_detached_drain (q : blocking_queue T) (fuel : nat) :
  consistent q -> data_ q <> [] ->
  Z.of_nat (length (data_ q)) < UINT_RANGE ->
  (length (data_ q) < fuel)%nat ->
  exists q',
    traverse_back_detached T_default fuel q = Done (rev (data_ q), q')
    /\ data_ q' = [].
Proof.
  intros Hq Hne Hlen Hfuel.
  destruct (exists_last Hne) as (d & v & Hd).
  assert (Hl : length (data_ q) = S (length d)).
  { rewrite Hd, length_app. simpl. lia. }
  assert (Hnz : count_ (e_ q) <> 0).
  { apply consistent_nonzero; [exact Hq | lia]. }
  unfold traverse_back_detached, rbegin_detached. unfold bind at 1 2.
  rewrite bq_rbegin_spec.
  rewrite (@pop_back_spec T q v d (proj1 Hq) (proj1 (proj2 Hq)) Hnz Hd).
  cbv beta match delta [ret detach value_ end_].
  match goal with
  | |- context [mkQueue ?d0 ?m ?e ?z] =>
      destruct (@traverse_back_spec (rev d) fuel v [] (mkQueue d0 m e z))
        as (q' & Hrun & Hdata & Hq')
  end.
  - apply (@consistent_pop _ q d); [exact Hq | exact Hl].
  - cbn [data_]. now rewrite rev_involutive.
  - rewrite length_rev. lia.
  - rewrite length_rev. lia.
  - exists q'. rewrite Hrun. split; [| exact Hdata].
    rewrite Hd, rev_unit. reflexivity.
Qed.

Lemma op_incr_attached (it : consumer_iterator T) (q : blocking_queue T) :
  is_detached it = false ->
  op_incr it q =
    match pop_front q with
    | Done (v, q') => Done (set_value it v, q')
    | Blocked => Blocked
    | Undefined => Undefined
    | OutOfFuel => OutOfFuel
    end.
Proof.
  intros Hdet. unfold op_incr, detached_and_empty, bind. rewrite Hdet.
  unfold ret. destruct (pop_front q) as [[v q'] | | |]; reflexivity.
Qed.

Lemma traverse_attached_blocks (rest : list T) :
  forall (fuel : nat) (v : T) (acc : list T) (q : blocking_queue T),
    consistent q -> data_ q = rest ->
    Z.of_nat (length rest) < UINT_RANGE ->
    (length rest < fuel)%nat ->
    traverse T_default fuel (mkIterator v false false) acc q = Blocked.
Proof.
  induction rest as [| w rest IH]; intros fuel v acc q Hq Hd Hlen Hfuel.
  - destruct fuel as [| fuel]; [simpl in Hfuel; lia |].
    cbn [traverse]. unfold bind at 1. rewrite bq_end_spec.
    cbv beta iota delta [op_neq op_eq end_ eqb negb op_deref value_].
    unfold bind at 1. rewrite op_incr_attached by reflexivity.
    rewrite pop_front_zero; [reflexivity |].
    destruct Hq as (_ & _ & Hc). rewrite Hc, Hd. reflexivity.
  - destruct fuel as [| fuel]; [simpl in Hfuel; lia |].
    assert (Hnz : count_ (e_ q) <> 0).
    { apply consistent_nonzero; [exact Hq |]. rewrite Hd.
      cbn [length] in *. lia. }
    cbn [traverse]. unfold bind at 1. rewrite bq_end_spec.
    cbv beta iota delta [op_neq op_eq end_ eqb negb op_deref value_].
    unfold bind at 1. rewrite op_incr_attached by reflexivity.
    rewrite (@pop_front_spec T q w rest (proj1 Hq) (proj1 (proj2 Hq)) Hnz Hd).
    cbv beta match delta [set_value detach_ end_].
    apply IH.
    + apply (@consistent_pop _ q rest); [exact Hq | now rewrite Hd].
    + reflexivity.
    + cbn [length] in Hlen. lia.
    + cbn [length] in Hfuel. lia.
Qed.

(** The loop run to its end is the loop run [n] rounds and then run to
    its end. *)
Lemma traverse_after_loop_steps (n fuel : nat) :
  forall (it : consumer_iterator T) (acc : list T) (q : blocking_queue T),
    traverse T_default (n + S fuel) it acc q =
      match loop_steps T_default n it acc q with
      | Done ((it', acc'), q') => traverse T_default (S fuel) it' acc' q'
      | Blocked => Blocked
      | Undefined => Undefined
      | OutOfFuel => OutOfFuel
      end.
Proof.
  induction n as [| n IH]; intros it acc q; [reflexivity |].
  cbn [Nat.add traverse loop_steps]. unfold bind at 1 3.
  rewrite bq_end_spec. cbv beta match.
  destruct (op_neq it (mkIterator T_default false true)) eqn:Hne.
  - unfold bind. destruct (op_incr it q) as [[it1 q1] | | |]; try reflexivity.
    apply IH.
  - unfold ret. cbn [traverse]. unfold bind. rewrite bq_end_spec.
    cbv beta match. now rewrite Hne.
Qed.

Lemma loop_steps_attached (rest : list T) :
  forall (v : T) (acc d : list T) (w : T) (q : blocking_queue T),
    consistent q -> data_ q = rest -> v :: rest = d ++ [w] ->
    Z.of_nat (length rest) < UINT_RANGE ->
    exists q',
      loop_steps T_default (length rest) (mkIterator v false false) acc q
      = Done ((mkIterator w false false, acc ++ d), q')
      /\ data_ q' = [] /\ consistent q'.
Proof.
  induction rest as [| x rest IH]; intros v acc d w q Hq Hd Hvw Hlen.
  - destruct d as [| v0 [| v1 d]]; cbn in Hvw; try discriminate.
    injection Hvw as <-. exists q. rewrite app_nil_r. auto.
  - destruct d as [| v0 d]; [destruct rest; discriminate |].
    cbn [app] in Hvw. injection Hvw as <- Hvw.
    assert (Hnz : count_ (e_ q) <> 0).
    { apply consistent_nonzero; [exact Hq |]. rewrite Hd.
      cbn [length] in *. lia. }
    cbn [length loop_steps]. unfold bind at 1. rewrite bq_end_spec.
    cbv beta iota delta [op_neq op_eq end_ eqb negb op_deref value_].
    unfold bind at 1. rewrite op_incr_attached by reflexivity.
    rewrite (@pop_front_spec T q x rest (proj1 Hq) (proj1 (proj2 Hq)) Hnz Hd).
    cbv beta match delta [set_value detach_ end_].
    match goal with
    | |- context [mkQueue ?d0 ?m ?e ?z] =>
        destruct (IH x (acc ++ [v]) d w (mkQueue d0 m e z))
          as (q' & Hrun & Hdata & Hq')
    end.
    + apply (@consistent_pop _ q rest); [exact Hq | now rewrite Hd].
    + reflexivity.
    + exact Hvw.
    + cbn [length] in Hlen. lia.
    + exists q'. rewrite Hrun, <- app_assoc. auto.
Qed.

(** X11. The traversal that is not detached has no way out.  On a queue
    between two calls that holds [d ++ [w]], fewer than [2^32] elements,
    a thread alone in [for (it = begin(); it != end(); ++it)] gets
    through [begin()] and as many rounds as [d] has elements: it has then
    read the elements of [d] in order, holds [w], and the queue is empty.
    The iterator still differs from [end()], so the next round reads [w]
    and advances, and that [++it] waits in [pop_front()].  The loop as a
    whole does not return. *)
Theorem attached_traversal_blocks
  (q : blocking_queue T) (d : list T) (w : T) (fuel : nat) :
  consistent q -> data_ q = d ++ [w] ->
  Z.of_nat (length (data_ q)) < UINT_RANGE ->
  (length (data_ q) <= fuel)%nat ->
  exists q',
    (it <- bq_begin T_default ;; loop_steps T_default (length d) it []) q
    = Done ((mkIterator w false false, d), q')
    /\ data_ q' = []
    /\ (e <- bq_end T_default ;; ret (op_neq (mkIterator w false false) e)) q'
       = Done (true, q')
    /\ op_incr (mkIterator w false false) q' = Blocked
    /\ traverse_plain T_default fuel q = Blocked.
Proof.
  intros Hq Hd Hlen Hfuel.
  assert (Hsplit : exists v rest, data_ q = v :: rest /\ v :: rest = d ++ [w]
                                  /\ length rest = length d).
  { destruct (data_ q) as [| v rest] eqn:E.
    - destruct d; discriminate.
    - exists v, rest. split; [reflexivity |]. split; [exact Hd |].
      apply (f_equal (@length T)) in Hd. rewrite length_app in Hd.
      cbn [length] in Hd. lia. }
  destruct Hsplit as (v & rest & Hvr & Hvw & Hl).
  assert (Hlq : length (data_ q) = S (length rest)) by now rewrite Hvr.
  assert (Hnz : count_ (e_ q) <> 0).
  { apply consistent_nonzero; [exact Hq | lia]. }
  pose proof (@pop_front_spec T q v rest (proj1 Hq) (proj1 (proj2 Hq)) Hnz Hvr)
    as Hpop.
  match type of Hpop with
  | _ = Done (_, ?q1) =>
      assert (Hq1 : consistent q1)
        by (apply (@consistent_pop _ q rest); [exact Hq | exact Hlq]);
      destruct (@loop_steps_attached rest v [] d w q1 Hq1 eq_refl Hvw
                  ltac:(lia))
        as (q' & Hrun & Hdata & Hq');
      pose proof (@traverse_attached_blocks rest fuel v [] q1 Hq1 eq_refl
                    ltac:(lia) ltac:(lia)) as Htr
  end.
  exists q'. split; [| split; [exact Hdata | split; [| split]]].
  - unfold bind. rewrite bq_begin_spec, Hpop. rewrite <- Hl. exact Hrun.
  - unfold bind. rewrite bq_end_spec. reflexivity.
  - rewrite op_incr_attached by reflexivity.
    rewrite pop_front_zero; [reflexivity |].
    destruct Hq' as (_ & _ & Hc). rewrite Hc, Hdata. reflexivity.
  - unfold traverse_plain, bind. rewrite bq_begin_spec, Hpop. exact Htr.
Qed.

End MoreIteratorFacts.

Lemma begin_takes_front_rbegin_takes_back_witness :
  (exists q1,
      bq_begin 0 (mkQueue [1; 2; 3] Free (semaphore_new 3) 0)
      = Done (mkIterator 1 false false, q1)
      /\ data_ q1 = [2] ++ [3] /\ consistent q1)
  /\ (exists q2,
         bq_rbegin 0 (mkQueue [1; 2; 3] Free (semaphore_new 3) 0)
         = Done (mkIterator 3 false false, q2)
         /\ data_ q2 = [1; 2] /\ consistent q2)
  /\ (forall (it : consumer_iterator Z) (q' : blocking_queue Z),
         end_ it = false ->
         (e <- bq_end 0 ;; ret (op_neq it e)) q' = Done (true, q')).
Proof.
  apply (@begin_takes_front_rbegin_takes_back Z 0
           (mkQueue [1; 2; 3] Free (semaphore_new 3) 0) 1 3 [2]).
  - repeat split.
  - reflexivity.
  - reflexivity.
Defined.

Lemma advance_flags_witness :
  detach_ (mkIterator 4 true true) = detach_ (mkIterator 4 true false)
  /\ (end_ (mkIterator 4 true false) = true ->
      end_ (mkIterator 4 true true) = true)
  /\ (end_ (mkIterator 4 true false) = false ->
      end_ (mkIterator 4 true true) = true ->
      detach_ (mkIterator 4 true false) = true
      /\ data_ (blocking_queue_new Z 0) = []
      /\ blocking_queue_new Z 0 = blocking_queue_new Z 0).
Proof.
  apply (@advance_flags Z (mkIterator 4 true false) (mkIterator 4 true true)
           (blocking_queue_new Z 0) (blocking_queue_new Z 0)).
  left. reflexivity.
Defined.


Lemma reverse_detached_drain_witness :
  exists q',
    traverse_back_detached 0 4 (mkQueue [1; 2; 3] Free (semaphore_new 3) 0)
    = Done (rev [1; 2; 3], q')
    /\ data_ q' = [].
Proof.
  apply (@reverse_detached_drain Z 0
           (mkQueue [1; 2; 3] Free (semaphore_new 3) 0) 4).
  - repeat split.
  - discriminate.
  - reflexivity.
  - simpl. lia.
Defined.

Lemma attached_traversal_blocks_witness :
  exists q',
    (it <- bq_begin 0 ;; loop_steps 0 (length [1; 2]) it [])
      (mkQueue [1; 2; 3] Free (semaphore_new 3) 0)
    = Done ((mkIterator 3 false false, [1; 2]), q')
    /\ data_ q' = []
    /\ (e <- bq_end 0 ;; ret (op_neq (mkIterator 3 false false) e)) q'
       = Done (true, q')
    /\ op_incr (mkIterator 3 false false) q' = Blocked
    /\ traverse_plain 0 3 (mkQueue [1; 2; 3] Free (semaphore_new 3) 0)
       = Blocked.
Proof.
  apply (@attached_traversal_blocks Z 0
           (mkQueue [1; 2; 3] Free (semaphore_new 3) 0) [1; 2] 3 3).
  - repeat split.
  - reflexivity.
  - reflexivity.
  - simpl. lia.
Defined.

(** * Further properties of the gate *)

Lemma run_gate_app (a b : list gate_op) (s : semaphore) :
  run_gate (a ++ b) s = (run_gate a ;; run_gate b) s.
Proof.
  revert s. induction a as [| o a IH]; intros s.
  - reflexivity.
  - cbn [app run_gate]. unfold bind.
    destruct (run_gate_op o s) as [[[] s1] | | |]; try reflexivity.
    rewrite IH. reflexivity.
Qed.

Lemma run_gate_exact (os : list gate_op) :
  forall s s' : semaphore,
    0 <= count_ s -> count_ s + signals os <= INT_MAX ->
    run_gate os s = Done (tt, s') ->
    count_ s' = count_ s + signals os - waits os /\ mtx_ s' = mtx_ s.
Proof.
  unfold signals, waits.
  induction os as [| o os IH]; intros s s' Hlo Hhi Hrun.
  - injection Hrun as <-. cbn [filter length]. split; [lia | reflexivity].
  - cbn [run_gate] in Hrun. unfold bind in Hrun.
    destruct (run_gate_op o s) as [[[] s1] | | |] eqn:Ho; try discriminate.
    destruct o; cbn [run_gate_op filter is_signal negb length] in *.
    + destruct (mtx_ s) eqn:Hm;
        [| rewrite (SemaphoreFacts.signal_held s Hm) in Ho; discriminate].
      rewrite (SemaphoreFacts.signal_spec s Hm) in Ho. injection Ho as <-.
      assert (Hw : wrap (count_ s + 1) = count_ s + 1).
      { apply wrap_in_range. unfold INT_MIN, INT_MAX in *. lia. }
      rewrite Hw in Hrun.
      apply IH in Hrun; cbn [count_ mtx_] in *; [| lia | lia].
      split; [lia | apply Hrun].
    + assert (Hret : exists s2, Semaphore.wait s = Done (tt, s2)) by eauto.
      apply SemaphoreFacts.wait_returns_iff in Hret as [Hm Hnz].
      rewrite (SemaphoreFacts.wait_spec s Hm Hnz) in Ho. injection Ho as <-.
      assert (Hw : wrap (count_ s - 1) = count_ s - 1).
      { apply wrap_in_range. unfold INT_MIN, INT_MAX in *. lia. }
      rewrite Hw in Hrun.
      apply IH in Hrun; cbn [count_ mtx_] in *; [| lia | lia].
      split; [lia | rewrite Hm; apply Hrun].
Qed.

(** X12. The counter keeps the balance: for a gate created with a count
    [c >= 0], after a completed one-thread run of [signal()] and [wait()]
    calls in which [c] plus the number of signals stays within [INT_MAX],
    the counter is [c] plus the signals minus the waits, and [mtx_] is
    free again. *)
Theorem gate_counter_balance (c : Z) (os : list gate_op) (s' : semaphore) :
  0 <= c -> c + signals os <= INT_MAX ->
  run_gate os (semaphore_new c) = Done (tt, s') ->
  count_ s' = c + signals os - waits os /\ mtx_ s' = Free.
Proof.
  intros Hlo Hhi Hrun.
  apply (run_gate_exact os (semaphore_new c) Hlo Hhi Hrun).
Qed.

Lemma gate_counter_balance_witness :
  count_ (semaphore_new 0)
  = 1 + signals [Signal; Wait; Signal; Wait; Wait]
    - waits [Signal; Wait; Signal; Wait; Wait]
  /\ mtx_ (semaphore_new 0) = Free.
Proof.
  apply (@gate_counter_balance 1 [Signal; Wait; Signal; Wait; Wait]
           (semaphore_new 0)).
  - lia.
  - vm_compute. discriminate.
  - reflexivity.
Defined.

Lemma run_signals (n : nat) :
  forall s : semaphore,
    mtx_ s = Free -> 0 <= count_ s -> count_ s + Z.of_nat n <= INT_MAX ->
    exists s', run_gate (repeat Signal n) s = Done (tt, s')
               /\ mtx_ s' = Free /\ count_ s' = count_ s + Z.of_nat n.
Proof.
  induction n as [| n IH]; intros s Hm Hlo Hhi.
  - exists s. cbn. split; [reflexivity |]. split; [exact Hm | lia].
  - cbn [repeat run_gate run_gate_op]. unfold bind.
    rewrite (SemaphoreFacts.signal_spec s Hm).
    rewrite wrap_in_range by (unfold INT_MIN, INT_MAX in *; lia).
    destruct (IH (mkSemaphore Free Free (count_ s + 1)))
      as (s' & Hrun & Hm' & Hc'); cbn [mtx_ count_]; [reflexivity | lia | lia |].
    exists s'. split; [exact Hrun |]. split; [exact Hm' |].
    rewrite Hc'. cbn [count_]. lia.
Qed.

Lemma run_waits (m : nat) :
  forall s : semaphore,
    mtx_ s = Free -> 0 <= count_ s <= INT_MAX ->
    if Z.of_nat m <=? count_ s
    then exists s', run_gate (repeat Wait m) s = Done (tt, s')
                    /\ count_ s' = count_ s - Z.of_nat m
    else run_gate (repeat Wait m) s = Blocked.
Proof.
  induction m as [| m IH]; intros s Hm Hc.
  - replace (Z.of_nat 0 <=? count_ s) with true
      by (symmetry; apply Z.leb_le; lia).
    exists s. split; [reflexivity | cbn; lia].
  - cbn [repeat run_gate run_gate_op]. unfold bind.
    destruct (Z.eq_dec (count_ s) 0) as [Hz | Hnz].
    + rewrite (SemaphoreFacts.wait_zero s Hz).
      replace (Z.of_nat (S m) <=? count_ s) with false
        by (symmetry; apply Z.leb_gt; lia).
      reflexivity.
    + rewrite (SemaphoreFacts.wait_spec s Hm Hnz).
      rewrite wrap_in_range by (unfold INT_MIN, INT_MAX in *; lia).
      specialize (IH (mkSemaphore Free (sig_ s) (count_ s - 1))
                    eq_refl ltac:(cbn [count_]; lia)).
      cbn [count_] in IH.
      destruct (Z.leb_spec (Z.of_nat m) (count_ s - 1)) as [Hle | Hgt].
      * replace (Z.of_nat (S m) <=? count_ s) with true
          by (symmetry; apply Z.leb_le; lia).
        destruct IH as (s' & Hrun & Hc'). exists s'.
        split; [exact Hrun | lia].
      * replace (Z.of_nat (S m) <=? count_ s) with false
          by (symmetry; apply Z.leb_gt; lia).
        exact IH.
Qed.

(** X13. The gate lets through as many waits as it got signals: on a fresh
    gate, [n] calls of [signal()] ([n <= INT_MAX]) followed by [m] calls
    of [wait()] in one thread all return when [m <= n], leaving the
    counter at [n - m]; when [m > n] the run does not return. *)
Theorem signals_then_waits (n m : nat) :
  Z.of_nat n <= INT_MAX ->
  if (m <=? n)%nat
  then exists s', run_gate (repeat Signal n ++ repeat Wait m) semaphore_default
                  = Done (tt, s')
                  /\ count_ s' = Z.of_nat n - Z.of_nat m
  else run_gate (repeat Signal n ++ repeat Wait m) semaphore_default = Blocked.
Proof.
  intros Hn. rewrite run_gate_app. unfold bind.
  destruct (run_signals n semaphore_default eq_refl)
    as (s1 & Hrun1 & Hm1 & Hc1); cbn [semaphore_default semaphore_new count_];
    [lia | lia |].
  cbn [semaphore_default semaphore_new count_] in Hc1.
  rewrite Hrun1.
  pose proof (run_waits m s1 Hm1 ltac:(lia)) as Hw.
  rewrite Hc1 in Hw.
  destruct (Nat.leb_spec m n) as [Hle | Hgt].
  - replace (Z.of_nat m <=? 0 + Z.of_nat n) with true in Hw
      by (symmetry; apply Z.leb_le; lia).
    destruct Hw as (s' & Hrun & Hc'). exists s'.
    split; [exact Hrun | lia].
  - replace (Z.of_nat m <=? 0 + Z.of_nat n) with false in Hw
      by (symmetry; apply Z.leb_gt; lia).
    exact Hw.
Qed.

Lemma signals_then_waits_witness :
  run_gate (repeat Signal 2 ++ repeat Wait 3) semaphore_default = Blocked.
Proof.
  apply (signals_then_waits 2 3). vm_compute. discriminate.
Defined.

(** ** Mutual exclusion on [mtx_] *)

Module ExclusionFacts.
Import Interleaving.

Lemma holders_set_nth (l : list pc) :
  forall (i : nat) (p p' : pc),
    nth_error l i = Some p ->
    (holders (set_nth i p' l) + Nat.b2n (inside p)
     = holders l + Nat.b2n (inside p'))%nat.
Proof.
  unfold holders.
  induction l as [| x l IH]; intros [| i] p p' Hn; cbn in Hn; try discriminate.
  - injection Hn as ->. cbn [set_nth filter].
    destruct (inside p), (inside p'); cbn; lia.
  - cbn [set_nth filter]. specialize (IH i p p' Hn).
    destruct (inside x); cbn [length]; lia.
Qed.

Lemma holders_nth (l : list pc) :
  forall (i : nat) (p : pc),
    nth_error l i = Some p -> inside p = true -> (1 <= holders l)%nat.
Proof.
  unfold holders.
  induction l as [| x l IH]; intros [| i] p Hn Hp; cbn in Hn; try discriminate.
  - injection Hn as ->. cbn [filter]. rewrite Hp. cbn. lia.
  - cbn [filter]. specialize (IH i p Hn Hp).
    destruct (inside x); cbn [length]; lia.
Qed.

Lemma holders_at_entry (l : list pc) :
  forallb at_entry l = true -> holders l = 0%nat.
Proof.
  unfold holders. induction l as [| x l IH]; [reflexivity |].
  cbn [forallb filter]. intros H. apply andb_true_iff in H as [Hx Hl].
  destruct x; try discriminate; cbn [inside]; exact (IH Hl).
Qed.

(** The number of holders that goes with a lock word. *)
Lemma thread_step_mtx (p p' : pc) (g g' : semaphore) :
  thread_step p g = Some (p', g') ->
  (inside p = true -> mtx_ g = Taken) ->
  ((match mtx_ g' with Taken => 1 | Free => 0 end) + Nat.b2n (inside p)
   = (match mtx_ g with Taken => 1 | Free => 0 end) + Nat.b2n (inside p'))%nat.
Proof.
  destruct g as [m sg c]. intros Hstep Hin.
  destruct p; cbn in Hin; try (rewrite (Hin eq_refl) in *; clear Hin);
    cbn -[wrap] in Hstep;
    try (destruct m; cbn -[wrap] in Hstep);
    try (destruct sg; cbn -[wrap] in Hstep);
    try discriminate;
    try (injection Hstep as <- <-; reflexivity).
  all: destruct (c =? 0); injection Hstep as <- <-; reflexivity.
Qed.

Lemma turn_exclusion (st : system) (i : nat) :
  holders (threads st) = match mtx_ (gate st) with Taken => 1 | Free => 0 end%nat ->
  holders (threads (turn st i))
  = match mtx_ (gate (turn st i)) with Taken => 1 | Free => 0 end%nat.
Proof.
  intros Hinv. unfold turn.
  destruct (nth_error (threads st) i) as [p |] eqn:Hn; [| exact Hinv].
  destruct (thread_step p (gate st)) as [[p' g'] |] eqn:Hstep; [| exact Hinv].
  cbn [threads gate].
  pose proof (holders_set_nth (threads st) i p' Hn) as Hset.
  assert (Hin : inside p = true -> mtx_ (gate st) = Taken).
  { intros Hp. pose proof (holders_nth (threads st) i Hn Hp) as H1.
    destruct (mtx_ (gate st)); [lia | reflexivity]. }
  pose proof (thread_step_mtx p (gate st) Hstep Hin) as Hm.
  lia.
Qed.

(** X14. At every point of every schedule, from threads that are all about to
    call [signal()] or [wait()] on a gate whose [mtx_] is free: at most
    one thread is between taking [mtx_] and releasing it, and [mtx_] is
    taken exactly when one is. *)
Theorem mtx_mutual_exclusion (c : Z) (ths : list pc) (schedule : list nat) :
  forallb at_entry ths = true ->
  let st := run schedule (mkSystem (semaphore_new c) ths) in
  holders (threads st) = match mtx_ (gate st) with Taken => 1 | Free => 0 end%nat.
Proof.
  intros Hall. cbv zeta. unfold run.
  assert (Hinit : holders (threads (mkSystem (semaphore_new c) ths))
                  = match mtx_ (gate (mkSystem (semaphore_new c) ths)) with
                    | Taken => 1 | Free => 0 end%nat).
  { cbn [threads gate semaphore_new mtx_]. now apply holders_at_entry. }
  revert Hinit. generalize (mkSystem (semaphore_new c) ths).
  induction schedule as [| i schedule IH]; intros st Hst; [exact Hst |].
  cbn [fold_left]. apply IH. now apply turn_exclusion.
Qed.

Lemma mtx_mutual_exclusion_witness :
  let st := run [1; 0; 1; 2; 1; 0]%nat
              (mkSystem (semaphore_new 0) [WaitLock; SignalLock; SignalLock]) in
  holders (threads st) = match mtx_ (gate st) with Taken => 1 | Free => 0 end%nat.
Proof.
  apply (@mtx_mutual_exclusion 0 [WaitLock; SignalLock; SignalLock]
           [1; 0; 1; 2; 1; 0]%nat).
  reflexivity.
Defined.

Example exclusion_midway :
  run [1; 0; 1; 2; 1; 0]%nat
    (mkSystem (semaphore_new 0) [WaitLock; SignalLock; SignalLock])
  = mkSystem (mkSemaphore Taken Free 1) [WaitLock; SignalExit; SignalLock].
Proof. reflexivity. Qed.

End ExclusionFacts.
